(** * NM150 driver for weewx: a shallow embedding of [bin/user/nm150.py]

    The driver reads an NMEA-0183 stream from a serial port in reads of at
    most 70 bytes, cuts the next [$WIMDA,...] sentence out of it with a
    regular expression, hands the sentence to pynmea2 and turns five of its
    fields into a weewx LOOP packet.

    Python 2 [str] values are byte strings: they are modelled as lists of
    8-bit characters.  Python [float]s are IEEE binary64 numbers: they are
    modelled by the primitive binary64 floats of the kernel. *)

From Stdlib Require Import Floats.PrimFloat Floats.SpecFloat Floats.FloatOps Strings.Ascii.
From Stdlib Require Import Numbers.Cyclic.Int63.Uint63.
From stdpp Require Import gmap strings list fin_maps.

(* Decimal literals such as 29.92 stand for the nearest binary64 float. *)
Set Warnings "-inexact-float".

Open Scope list_scope.
Open Scope nat_scope.

(** ** Byte strings *)

Definition bytes := list ascii.

Definition NUL : ascii := "000"%char.
Definition LF : ascii := "010"%char.
Definition CR : ascii := "013"%char.

(** A string literal as a byte string. *)
Definition B (s : string) : bytes := String.list_ascii_of_string s.

Definition ascii_eqb (a b : ascii) : bool := Ascii.eqb a b.

(** ** [str.strip(chars)] for a one-character [chars]

    CPython advances an index from the left while the character is in
    [chars], then moves an index back from the right in the same way, and
    returns the slice between the two. *)

Fixpoint lstrip (c : ascii) (s : bytes) : bytes :=
  match s with
  | [] => []
  | x :: s' => if ascii_eqb x c then lstrip c s' else s
  end.

Fixpoint rstrip (c : ascii) (s : bytes) : bytes :=
  match s with
  | [] => []
  | x :: s' =>
      match rstrip c s' with
      | [] => if ascii_eqb x c then [] else [x]
      | r => x :: r
      end
  end.

Definition strip (c : ascii) (s : bytes) : bytes := rstrip c (lstrip c s).

(** ** The regular expression of [get_wimda_packet]

    The pattern is group 1, holding the literal [$WIMDA,] and a greedy
    dot-star, followed by a newline.  A backtracking matcher in the manner of Python's [re], for the
    constructs this pattern uses: literal characters, [.] (any character
    but a newline, no DOTALL flag is given), the greedy [.*], and the
    parentheses of group 1. *)

Inductive atom : Type :=
| Lit (c : ascii)
| Dot
| DotStar
| GOpen
| GClose.

Definition pattern := list atom.

(** A successful match: the span of the whole match (group 0) and the span
    of group 1, as offsets into the subject. *)
Record span := mkSpan { s_start : nat; s_end : nat }.
Record match_object := mkMatch { m_subject : bytes; m_all : span; m_g1 : span }.

Definition set_g1_start (pos : nat) (r : nat * span) : nat * span :=
  (fst r, mkSpan pos (s_end (snd r))).
Definition set_g1_end (pos : nat) (r : nat * span) : nat * span :=
  (fst r, mkSpan (s_start (snd r)) pos).

(** The greedy dot-star in front of the rest of the pattern [k]: take one
    more character first, and come back to [k] at this offset when the
    pattern fails after it.  [.] does not match a newline. *)
Fixpoint star (k : nat -> bytes -> option (nat * span)) (pos : nat) (s : bytes)
  : option (nat * span) :=
  match s with
  | x :: s' =>
      if ascii_eqb x LF then k pos s
      else match star k (S pos) s' with
           | Some r => Some r
           | None => k pos s
           end
  | [] => k pos s
  end.

(** [match_here p pos s]: match [p] against [s], which begins at offset
    [pos] of the subject.  The result is the offset where the match ends and
    the span of group 1. *)
Fixpoint match_here (p : pattern) (pos : nat) (s : bytes) {struct p}
  : option (nat * span) :=
  match p with
  | [] => Some (pos, mkSpan 0 0)
  | Lit c :: p' =>
      match s with
      | x :: s' => if ascii_eqb x c then match_here p' (S pos) s' else None
      | [] => None
      end
  | Dot :: p' =>
      match s with
      | x :: s' => if ascii_eqb x LF then None else match_here p' (S pos) s'
      | [] => None
      end
  | DotStar :: p' => star (match_here p') pos s
  | GOpen :: p' => set_g1_start pos <$> match_here p' pos s
  | GClose :: p' => set_g1_end pos <$> match_here p' pos s
  end.

(** [re.search]: the leftmost position where the pattern matches. *)
Fixpoint search_from (p : pattern) (pos : nat) (s : bytes) : option (span * span) :=
  match match_here p pos s with
  | Some (e, g1) => Some (mkSpan pos e, g1)
  | None =>
      match s with
      | [] => None
      | _ :: s' => search_from p (S pos) s'
      end
  end.

Definition re_search (p : pattern) (subject : bytes) : option match_object :=
  match search_from p 0 subject with
  | Some (all, g1) => Some (mkMatch subject all g1)
  | None => None
  end.

Definition slice (s : bytes) (sp : span) : bytes :=
  take (s_end sp - s_start sp) (drop (s_start sp) s).

(** [matches.group(0)] and [matches.group(1)]. *)
Definition group0 (m : match_object) : bytes := slice (m_subject m) (m_all m).
Definition group1 (m : match_object) : bytes := slice (m_subject m) (m_g1 m).

Definition marker : bytes := B "$WIMDA,".

(** The pattern: open group 1, [\$WIMDA,], dot-star, close group 1, [\n]. *)
Definition WIMDA_RE : pattern :=
  GOpen :: map Lit marker ++ [DotStar; GClose; Lit LF].

(** ** The serial port

    Each [serial_port.read(70)] either returns a chunk of at most 70 bytes
    (the empty chunk after the 3 s timeout) or raises
    [serial.serialutil.SerialException].  A port is the finite list of the
    results its next reads will give. *)

Inductive exn : Type :=
| ValueError
| SerialException
| TypeError
| AttributeError.

Inductive event : Type :=
| Chunk (c : bytes)
| Broken.

Definition port := list event.

Definition read_size : nat := 70.

Definition wf_event (e : event) : bool :=
  match e with
  | Chunk c => bool_decide (length c <= read_size)
  | Broken => true
  end.

Definition wf_port (p : port) : bool := forallb wf_event p.

(** What a call did within the reads available: it returned, it raised, or
    it is still blocked in [read] when the list of events ends. *)
Inductive outcome (A : Type) : Type :=
| Return (a : A)
| Raise (e : exn)
| Blocked.
Arguments Return {A} a.
Arguments Raise {A} e.
Arguments Blocked {A}.

(** ** The driver object

    [self.serial_port] is the [serial.Serial] object that [__init__] opens,
    or [None] once [closePort] has run.  The serial object is described by
    the reads it still has to deliver. *)

Record Serial := mkSerial { rx : port }.

Record NM150 := mkNM150 { serial_port : option Serial }.

(** A driver whose port is open on the reads [p]. *)
Definition connected (p : port) : NM150 := mkNM150 (Some (mkSerial p)).

Definition pending (self : NM150) : port :=
  match serial_port self with
  | Some dev => rx dev
  | None => []
  end.

(** ** [NM150.closePort]

    The calls made on serial objects are recorded in the order they are
    made. *)

Inductive call : Type := SerialClose (dev : Serial).

Definition closePort (st : NM150 * list call) : NM150 * list call :=
  let (self, calls) := st in
  match serial_port self with
  | Some dev => (mkNM150 None, calls ++ [SerialClose dev])
  | None => (self, calls)
  end.

(** ** [NM150.get_wimda_packet]

    The [while True] loop, with the local [buf] as an argument. *)
Fixpoint wimda_loop (buf : bytes) (p : port) : outcome bytes * port :=
  match p with
  | [] => (Blocked, [])
  | Broken :: p' => (Raise SerialException, p')
  | Chunk chunk :: p' =>
      let chunk := strip NUL chunk in
      let buf := buf ++ chunk in
      match re_search WIMDA_RE buf with
      | Some matches => (Return (group1 matches), p')
      | None => wimda_loop buf p'
      end
  end.

(** The method: [buf] starts empty; on [None] the lookup of [read] fails. *)
Definition get_wimda_packet (self : NM150) : outcome bytes * NM150 :=
  match serial_port self with
  | None => (Raise AttributeError, self)
  | Some dev =>
      let (r, p') := wimda_loop [] (rx dev) in
      (r, connected p')
  end.

(** The frames that successive calls return, one call per turn of the loop
    of [genLoopPackets]; a call that raises is followed by the next call.
    A call on a port with reads left takes at least one of them. *)
Fixpoint frames_loop (fuel : nat) (self : NM150) : list bytes :=
  match fuel with
  | 0 => []
  | S fuel' =>
      match get_wimda_packet self with
      | (Return wimda_packet, self') => wimda_packet :: frames_loop fuel' self'
      | (Raise SerialException, self') => frames_loop fuel' self'
      | (Raise _, _) => []
      | (Blocked, _) => []
      end
  end.

Definition frames (p : port) : list bytes :=
  frames_loop (S (length p)) (connected p).

(** ** The collaborators of [genLoopPackets]

    [pynmea2.parse], the built-in [float] and [int], [time.time],
    [weewx.units.convert] and the constant [weewx.US] are not code of the
    driver.  They are the fields of a class, and the driver is written over
    any instance of it.  Fallible calls return the exception or the value. *)

Abbreviation except A := (exn + A)%type.

#[global] Instance except_ret : MRet (sum exn) := fun A x => inr x.
#[global] Instance except_bind : MBind (sum exn) := fun A B f x =>
  match x with
  | inl e => inl e
  | inr a => f a
  end.

Inductive unit_name : Type := degree_C | degree_F | knot | mile_per_hour.
Inductive unit_group : Type := group_temperature | group_speed.

(** A weewx value tuple: (value, unit, unit group). *)
Definition value_tuple := (float * unit_name * unit_group)%type.

(** The attributes of a parsed MDA sentence that the driver reads. *)
Record sentence (V : Type) := mkSentence {
  b_pressure_inch : V;
  air_temp : V;
  wind_speed_knots : V;
  direction_true : V;
  rel_humidity : V
}.
Arguments mkSentence {V}.
Arguments b_pressure_inch {V}.
Arguments air_temp {V}.
Arguments wind_speed_knots {V}.
Arguments direction_true {V}.
Arguments rel_humidity {V}.

Class Host := {
  (** what an attribute of a parsed sentence holds *)
  attr : Type;
  (** [pynmea2.parse(line)]; its errors are subclasses of [ValueError] *)
  pynmea2_parse : bytes -> except (sentence attr);
  (** [float(x)]: [ValueError] for text that is not a number, [TypeError]
      for an object that is neither text nor a number *)
  py_float : attr -> except float;
  (** [int(x)] of a float *)
  py_int : float -> Z;
  (** [time.time()] when the frame has been read and the reads [p] are left *)
  time_time : port -> float;
  (** [weewx.units.convert(val_t, target_unit)] *)
  weewx_units_convert : value_tuple -> unit_name -> value_tuple;
  (** [weewx.US] *)
  weewx_US : Z
}.

(** ** LOOP packets: a [dict] from key to number *)

Inductive pyval : Type :=
| PyInt (z : Z)
| PyFloat (f : float).

(** ** [NM150.genLoopPackets]

    The body of the [try], from [pynmea2.parse] to the packet that is
    yielded.  The [logdbg] calls write to syslog and change nothing else;
    they are left out. *)
Definition genLoopPackets_body `{Host} (now : float) (wimda_packet : bytes)
  : except (gmap string pyval) :=
  parsed ← pynmea2_parse wimda_packet;
  let packet : gmap string pyval := ∅ in
  let packet := <["usUnits" := PyInt weewx_US]> packet in
  let packet := <["dateTime" := PyInt (py_int (now + 0.5)%float)]> packet in
  barometer ← py_float (b_pressure_inch parsed);
  let packet := <["barometer" := PyFloat barometer]> packet in
  c ← py_float (air_temp parsed);
  let degree_C_t : value_tuple := (c, degree_C, group_temperature) in
  let degree_F_v := (weewx_units_convert degree_C_t degree_F).1.1 in
  let packet := <["outTemp" := PyFloat degree_F_v]> packet in
  k ← py_float (wind_speed_knots parsed);
  let wind_speed_knots_t : value_tuple := (k, knot, group_speed) in
  let wind_speed_mph := (weewx_units_convert wind_speed_knots_t mile_per_hour).1.1 in
  let packet := <["windSpeed" := PyFloat wind_speed_mph]> packet in
  d ← py_float (direction_true parsed);
  let packet := <["windDir" := PyFloat d]> packet in
  h ← py_float (rel_humidity parsed);
  let packet := <["outHumidity" := PyFloat h]> packet in
  mret packet.

(** [except (ValueError, serial.serialutil.SerialException), e] *)
Definition caught (e : exn) : bool :=
  match e with
  | ValueError | SerialException => true
  | TypeError | AttributeError => false
  end.

(** One [next()] of the generator: the [while True] loop runs until a packet
    is yielded, an exception that the [except] clause does not name leaves
    the generator, or the reads end.  [log] holds the exceptions reported by
    [logerr]. *)
Fixpoint gen_loop `{Host} (fuel : nat) (self : NM150) (log : list exn)
  : outcome (gmap string pyval) * NM150 * list exn :=
  match fuel with
  | 0 => (Blocked, self, log)
  | S fuel' =>
      match get_wimda_packet self with
      | (Blocked, self') => (Blocked, self', log)
      | (Raise e, self') =>
          if caught e then gen_loop fuel' self' (log ++ [e])
          else (Raise e, self', log)
      | (Return wimda_packet, self') =>
          match genLoopPackets_body (time_time (pending self')) wimda_packet with
          | inr packet => (Return packet, self', log)
          | inl e =>
              if caught e then gen_loop fuel' self' (log ++ [e])
              else (Raise e, self', log)
          end
      end
  end.

(** Every turn of the loop that goes on takes at least one read, so one
    turn more than there are reads is enough. *)
Definition genLoopPackets_next `{Host} (self : NM150) (log : list exn)
  : outcome (gmap string pyval) * NM150 * list exn :=
  gen_loop (S (length (pending self))) self log.

(** ** A stand-in host

    A small instance of [Host], to run the driver on examples: a sentence
    is split at its commas and the MDA fields are taken at their NMEA-0183
    positions; an empty field is [None], as pynmea2 has it; [float] reads
    an unsigned decimal. *)

Definition digit_val (c : ascii) : option float :=
  (if ascii_eqb c "0" then Some 0 else if ascii_eqb c "1" then Some 1
   else if ascii_eqb c "2" then Some 2 else if ascii_eqb c "3" then Some 3
   else if ascii_eqb c "4" then Some 4 else if ascii_eqb c "5" then Some 5
   else if ascii_eqb c "6" then Some 6 else if ascii_eqb c "7" then Some 7
   else if ascii_eqb c "8" then Some 8 else if ascii_eqb c "9" then Some 9
   else None)%float.

(** [acc] is the number read so far without its point, [scale] the power of
    ten to divide it by, [frac] whether the point has been passed. *)
Fixpoint decimal_loop (s : bytes) (acc scale : float) (frac : bool)
  : option float :=
  match s with
  | [] => Some (acc / scale)%float
  | c :: s' =>
      if ascii_eqb c "." then
        if frac then None else decimal_loop s' acc scale true
      else
        match digit_val c with
        | Some d =>
            decimal_loop s' (acc * 10 + d)%float
              (if frac then (scale * 10)%float else scale) frac
        | None => None
        end
  end.

Definition standin_float (x : option bytes) : except float :=
  match x with
  | None => inl TypeError
  | Some [] => inl ValueError
  | Some s =>
      match decimal_loop s 0%float 1%float false with
      | Some f => inr f
      | None => inl ValueError
      end
  end.

Fixpoint split_on (sep : ascii) (s : bytes) : list bytes :=
  match s with
  | [] => [[]]
  | c :: s' =>
      if ascii_eqb c sep then [] :: split_on sep s'
      else match split_on sep s' with
           | tok :: toks => (c :: tok) :: toks
           | [] => [[c]]
           end
  end.

Definition field (i : nat) (fields : list bytes) : option bytes :=
  match fields !! i with
  | Some (c :: tok) => Some (c :: tok)
  | _ => None
  end.

Definition standin_parse (line : bytes) : except (sentence (option bytes)) :=
  match split_on "," (rstrip CR line) with
  | tag :: data =>
      if bool_decide (tag = B "$WIMDA") then
        inr {| b_pressure_inch := field 0 data;
               air_temp := field 4 data;
               rel_humidity := field 8 data;
               direction_true := field 12 data;
               wind_speed_knots := field 16 data |}
      else inl ValueError
  | [] => inl ValueError
  end.

(** Truncation towards zero of a finite float. *)
Definition standin_int (f : float) : Z :=
  match Prim2SF f with
  | S754_finite sign m e =>
      let v := if (0 <=? e)%Z then (Z.pos m * 2 ^ e)%Z
               else (Z.pos m / 2 ^ (- e))%Z in
      if sign then (- v)%Z else v
  | _ => 0%Z
  end.

Definition standin_convert (v : value_tuple) (target : unit_name) : value_tuple :=
  match v.1.2, target with
  | degree_C, degree_F => ((v.1.1 * (9 / 5) + 32)%float, degree_F, v.2)
  | knot, mile_per_hour => ((v.1.1 * 1.15077945)%float, mile_per_hour, v.2)
  | _, _ => v
  end.

Definition standin_host : Host := {|
  attr := option bytes;
  pynmea2_parse := standin_parse;
  py_float := standin_float;
  py_int := standin_int;
  time_time := fun p => PrimFloat.of_uint63 (Uint63.of_Z (1478275200 - Z.of_nat (length p)));
  weewx_units_convert := standin_convert;
  weewx_US := 1
|}.

(** A sentence with pressure 29.92 inHg, air temperature 20.0 C, relative
    humidity 55.0 %, true wind direction 180.0 and wind speed 10.0 knots. *)
Definition sample_frame : bytes :=
  B "$WIMDA,29.92,I,1.0132,B,20.0,C,,,55.0,,10.7,C,180.0,T,175.0,M,10.0,N,5.1,M".

(** ** Vocabulary of the statements *)

(** [s.startswith(pre)] *)
Fixpoint starts_with (pre s : bytes) : bool :=
  match pre, s with
  | [], _ => true
  | c :: pre', x :: s' => ascii_eqb x c && starts_with pre' s'
  | _ :: _, [] => false
  end.

(** No occurrence of [$WIMDA,] begins at an offset below [n] of [s]. *)
Definition marker_free_before (n : nat) (s : bytes) : bool :=
  forallb (fun i => negb (starts_with marker (drop i s))) (seq 0 n).

(** What follows the dot-star in the pattern: the end of group 1, then the
    newline. *)
Definition tail_re : pattern := [GClose; Lit LF].

(** The buffer of [get_wimda_packet] after the chunks [cs] have been read. *)
Definition buffer_of (cs : list bytes) : bytes := concat (map (strip NUL) cs).

(** Two floats differ by less than [tol]. *)
Definition within (tol x y : float) : bool := (abs (x - y) <? tol)%float.

Definition tolerance : float := 0.001%float.

(** The packet holds a float under [key], within the tolerance of [expected]. *)
Definition reads (packet : gmap string pyval) (key : string) (expected : float) : Prop :=
  exists f, packet !! key = Some (PyFloat f) /\ within tolerance f expected = true.

Definition packet_keys : gset string :=
  {[ "usUnits"; "dateTime"; "barometer"; "outTemp"; "windSpeed"; "windDir";
     "outHumidity" ]}.

Definition measurement_keys : list string :=
  [ "barometer"; "outTemp"; "windSpeed"; "windDir"; "outHumidity" ].

(** The five attributes the driver passes to [float]. *)
Definition required_fields {V : Type} (parsed : sentence V) : list V :=
  [ b_pressure_inch parsed; air_temp parsed; wind_speed_knots parsed;
    direction_true parsed; rel_humidity parsed ].

(** The two entries of the host's conversion table that the driver asks
    for: Celsius to Fahrenheit is affine, knots to miles per hour linear. *)
Definition CtoF (x : float) : float := (x * (9 / 5) + 32)%float.

Definition knot_to_mph (x : float) : float := (x * 1.15077945)%float.

Definition conversion_contract `{Host} : Prop :=
  (forall x, (weewx_units_convert (x, degree_C, group_temperature) degree_F).1.1
             = CtoF x) /\
  (forall x, (weewx_units_convert (x, knot, group_speed) mile_per_hour).1.1
             = knot_to_mph x).

(** The exception of the first call, in the order of the calls, that
    raised. *)
Fixpoint first_error {A : Type} (l : list (except A)) : option exn :=
  match l with
  | [] => None
  | inl e :: _ => Some e
  | inr _ :: l' => first_error l'
  end.

(** ** Configuration: [NM150.__init__], [loader] and the conf editor

    A value of the station dictionary is a string, as the configuration
    file gives it, or an integer, as the default baud rate is.  [int] of a
    string and the constructor [serial.Serial], which opens the device,
    belong to the platform. *)

Inductive confval : Type :=
| CStr (s : string)
| CInt (z : Z).

Definition DRIVER_NAME : string := "NM150".
Definition DEFAULT_PORT : confval := CStr "/dev/ttyUSB0".
Definition DEFAULT_BAUD : confval := CInt 4800.

Class Platform := {
  (** [int(s)] of a string: [ValueError] when it is not an integer *)
  int_of_str : string -> except Z;
  (** [serial.Serial(port, baudrate, timeout=timeout)] *)
  serial_Serial : confval -> Z -> Z -> except Serial
}.

(** [int(x)] *)
Definition py_int_conf `{Platform} (x : confval) : except Z :=
  match x with
  | CInt z => inr z
  | CStr s => int_of_str s
  end.

(** [stn_dict.get(key, dflt)] *)
Definition dict_get (stn_dict : gmap string confval) (key : string)
    (dflt : confval) : confval :=
  match stn_dict !! key with
  | Some v => v
  | None => dflt
  end.

(** [NM150.__init__(self, **stn_dict)] *)
Definition NM150_init `{Platform} (stn_dict : gmap string confval)
  : except NM150 :=
  let port := dict_get stn_dict "port" DEFAULT_PORT in
  baudrate ← py_int_conf (dict_get stn_dict "baud" DEFAULT_BAUD);
  let timeout := 3%Z in
  dev ← serial_Serial port baudrate timeout;
  mret (mkNM150 (Some dev)).

(** [config_dict[DRIVER_NAME]] raises [KeyError] when the section is
    missing; [KeyError] is none of the exceptions the driver handles. *)
Inductive loaded : Type :=
| KeyError
| Constructed (r : except NM150).

(** [loader(config_dict, _)] *)
Definition loader `{Platform} (config_dict : gmap string (gmap string confval))
  : loaded :=
  match config_dict !! DRIVER_NAME with
  | None => KeyError
  | Some stn_dict => Constructed (NM150_init stn_dict)
  end.

(** [NM150ConfEditor.prompt_for_settings]; [prompt] is the [_prompt] of the
    base class, which returns the answer typed or the default. *)
Definition prompt_for_settings (prompt : string -> confval -> confval)
  : gmap string confval :=
  let port := prompt "port" DEFAULT_PORT in
  {[ "port" := port ]}.

(** A stand-in platform: [int] reads unsigned decimals, every device opens
    and has nothing to deliver. *)
Fixpoint decimal_Z (s : string) (acc : Z) : option Z :=
  match s with
  | EmptyString => Some acc
  | String c s' =>
      let n := nat_of_ascii c in
      if (48 <=? n) && (n <=? 57) then decimal_Z s' (acc * 10 + Z.of_nat (n - 48))
      else None
  end.

Definition standin_platform : Platform := {|
  int_of_str := fun s =>
    match s with
    | EmptyString => inl ValueError
    | _ => match decimal_Z s 0 with
           | Some z => inr z
           | None => inl ValueError
           end
    end;
  serial_Serial := fun _ _ _ => inr (mkSerial [])
|}.

(** A stricter stand-in: its parser refuses, with [ValueError], a sentence
    too short to hold the wind speed. *)
Definition strict_parse (line : bytes) : except (sentence (option bytes)) :=
  if bool_decide (length (split_on "," line) < 18) then inl ValueError
  else standin_parse line.

Definition strict_host : Host := {|
  attr := option bytes;
  pynmea2_parse := strict_parse;
  py_float := standin_float;
  py_int := standin_int;
  time_time := fun p => PrimFloat.of_uint63 (Uint63.of_Z (1478275200 - Z.of_nat (length p)));
  weewx_units_convert := standin_convert;
  weewx_US := 1
|}.

(** ** The stand-in host on the sample sentence *)

Example sample_decode :
  @genLoopPackets_body standin_host 0%float sample_frame
  = inr (<["outHumidity" := PyFloat 55]> (<["windDir" := PyFloat 180]>
        (<["windSpeed" := PyFloat 11.5077945]> (<["outTemp" := PyFloat 68]>
        (<["barometer" := PyFloat 29.92]> (<["dateTime" := PyInt 0]>
        (<["usUnits" := PyInt 1]> ∅))))))).
Proof. vm_compute. reflexivity. Qed.

(** ** Characters and [strip] *)

(** A character is absent from a literal byte string: by cases on where it
    would be. *)
Ltac absent_from_literal :=
  let H := fresh "H" in
  vm_compute; intros H;
  repeat (apply elem_of_cons in H as [H|H]; [discriminate H|]);
  by apply elem_of_nil in H.


Lemma ascii_eqb_true (x c : ascii) : ascii_eqb x c = true <-> x = c.
Proof. apply Ascii.eqb_eq. Qed.

Lemma ascii_eqb_false (x c : ascii) : ascii_eqb x c = false <-> x <> c.
Proof. apply Ascii.eqb_neq. Qed.

Lemma ascii_eqb_refl (c : ascii) : ascii_eqb c c = true.
Proof. by apply ascii_eqb_true. Qed.

Lemma lstrip_absent (c : ascii) (s : bytes) : c ∉ s -> lstrip c s = s.
Proof.
  destruct s as [|x s]; [done|].
  intros Hc. simpl.
  destruct (ascii_eqb x c) eqn:E; [|done].
  apply ascii_eqb_true in E. subst x. exfalso. apply Hc. left.
Qed.

Lemma rstrip_absent (c : ascii) (s : bytes) : c ∉ s -> rstrip c s = s.
Proof.
  induction s as [|x s IH]; [done|].
  intros Hc. apply not_elem_of_cons in Hc as [Hx Hs].
  simpl. rewrite (IH Hs).
  destruct s; [|done].
  destruct (ascii_eqb x c) eqn:E; [|done].
  apply ascii_eqb_true in E. congruence.
Qed.

Lemma strip_absent (c : ascii) (s : bytes) : c ∉ s -> strip c s = s.
Proof.
  intros Hc. unfold strip. rewrite (lstrip_absent c s Hc). by apply rstrip_absent.
Qed.

Lemma lstrip_replicate (c : ascii) (n : nat) (s : bytes) :
  lstrip c (replicate n c ++ s) = lstrip c s.
Proof.
  induction n as [|n IH]; [done|]. simpl. by rewrite ascii_eqb_refl.
Qed.

Lemma rstrip_replicate (c : ascii) (n : nat) : rstrip c (replicate n c) = [].
Proof.
  induction n as [|n IH]; [done|]. simpl. by rewrite IH, ascii_eqb_refl.
Qed.

Lemma rstrip_app_replicate (c : ascii) (n : nat) (s : bytes) :
  rstrip c (s ++ replicate n c) = rstrip c s.
Proof.
  induction s as [|x s IH]; simpl.
  - apply rstrip_replicate.
  - by rewrite IH.
Qed.

Lemma rstrip_last (c y : ascii) (s : bytes) :
  y <> c -> rstrip c (s ++ [y]) = s ++ [y].
Proof.
  intros Hy. induction s as [|x s IH]; simpl.
  - apply ascii_eqb_false in Hy. by rewrite Hy.
  - rewrite IH. by destruct s.
Qed.

Lemma rstrip_keep (c y : ascii) (l t : bytes) :
  y <> c -> rstrip c (l ++ y :: t) = l ++ y :: rstrip c t.
Proof.
  intros Hy. apply ascii_eqb_false in Hy.
  induction l as [|x l IH]; simpl.
  - rewrite Hy. by destruct (rstrip c t).
  - rewrite IH. by destruct l.
Qed.

(** [strip] works on the two ends only: what lies between a first and a
    later character that are not the stripped one is kept. *)
Lemma strip_keep (c x y : ascii) (l t : bytes) :
  x <> c -> y <> c ->
  strip c ((x :: l) ++ y :: t) = (x :: l) ++ y :: rstrip c t.
Proof.
  intros Hx Hy. unfold strip. simpl. apply ascii_eqb_false in Hx. rewrite Hx.
  by apply (rstrip_keep c y (x :: l) t).
Qed.

Lemma lstrip_all (c : ascii) (n : nat) : lstrip c (replicate n c) = [].
Proof. induction n as [|n IH]; [done|]. simpl. by rewrite ascii_eqb_refl. Qed.

(** Padding at the two ends of a text leaves no trace in what [strip]
    returns. *)
Lemma strip_padded (c : ascii) (a b : nat) (s : bytes) :
  strip c (replicate a c ++ s ++ replicate b c) = strip c s.
Proof.
  unfold strip. rewrite lstrip_replicate.
  induction s as [|x s IH]; simpl.
  - by rewrite lstrip_all.
  - destruct (ascii_eqb x c); [done|].
    apply (rstrip_app_replicate c b (x :: s)).
Qed.

(** Padding around a text that neither begins nor ends with the padding
    character is removed; the text is unchanged. *)
Lemma strip_padding (c x y : ascii) (mid : bytes) (a b : nat) :
  x <> c -> y <> c ->
  strip c (replicate a c ++ (x :: mid ++ [y]) ++ replicate b c) = x :: mid ++ [y].
Proof.
  intros Hx Hy. unfold strip. rewrite lstrip_replicate.
  simpl. apply ascii_eqb_false in Hx. rewrite Hx.
  change (x :: (mid ++ [y]) ++ replicate b c)
    with ((x :: mid ++ [y]) ++ replicate b c).
  rewrite rstrip_app_replicate.
  apply (rstrip_last c y (x :: mid) Hy).
Qed.

(** ** The matcher on the pattern of the driver *)

Lemma starts_with_inv (pre s : bytes) :
  starts_with pre s = true -> exists t, s = pre ++ t.
Proof.
  revert s. induction pre as [|c pre IH]; intros s H.
  - by exists s.
  - destruct s as [|x s]; [done|]. simpl in H.
    apply andb_true_iff in H as [Hx Hs]. apply ascii_eqb_true in Hx. subst x.
    destruct (IH s Hs) as [t ->]. by exists t.
Qed.

(** Only the first [length pre] characters count. *)
Lemma starts_with_long (pre s t : bytes) :
  length pre <= length s -> starts_with pre (s ++ t) = starts_with pre s.
Proof.
  revert s. induction pre as [|c pre IH]; intros s Hlen; [done|].
  destruct s as [|x s]; simpl in *; [lia|].
  rewrite IH; [done|lia].
Qed.

Lemma match_lits (lits : bytes) (p : pattern) (pos : nat) (t : bytes) :
  match_here (map Lit lits ++ p) pos (lits ++ t)
  = match_here p (pos + length lits) t.
Proof.
  revert pos. induction lits as [|c lits IH]; intros pos; simpl.
  - f_equal. lia.
  - rewrite ascii_eqb_refl, IH. f_equal. lia.
Qed.

Lemma match_lits_miss (lits : bytes) (p : pattern) (pos : nat) (s : bytes) :
  starts_with lits s = false -> match_here (map Lit lits ++ p) pos s = None.
Proof.
  revert pos s. induction lits as [|c lits IH]; intros pos s H; [done|].
  destruct s as [|x s]; [done|]. simpl in *.
  destruct (ascii_eqb x c); [|done]. by apply IH.
Qed.

Lemma tail_hit (pos : nat) (rest : bytes) :
  match_here tail_re pos (LF :: rest) = Some (S pos, mkSpan 0 pos).
Proof. reflexivity. Qed.

Lemma tail_miss (pos : nat) (s : bytes) :
  head s <> Some LF -> match_here tail_re pos s = None.
Proof.
  destruct s as [|x s]; [done|]. simpl. intros H.
  destruct (ascii_eqb x LF) eqn:E; [|done].
  apply ascii_eqb_true in E. by subst x.
Qed.

(** The greedy dot-star stops at the first newline, and finds nothing to
    come back to before it. *)
Lemma star_hit (pos : nat) (body rest : bytes) :
  LF ∉ body ->
  star (match_here tail_re) pos (body ++ LF :: rest)
  = Some (S (pos + length body), mkSpan 0 (pos + length body)).
Proof.
  revert pos. induction body as [|x body IH]; intros pos Hb.
  - simpl. by rewrite Nat.add_0_r.
  - apply not_elem_of_cons in Hb as [Hx Hb].
    cbn [app star]. apply not_eq_sym, ascii_eqb_false in Hx. rewrite Hx.
    rewrite (IH (S pos) Hb).
    by replace (pos + length (x :: body)) with (S pos + length body)
      by (simpl; lia).
Qed.

Lemma star_miss (pos : nat) (s : bytes) :
  LF ∉ s -> star (match_here tail_re) pos s = None.
Proof.
  revert pos. induction s as [|x s IH]; intros pos Hs; [done|].
  apply not_elem_of_cons in Hs as [Hx Hs].
  cbn [star]. pose proof Hx as Hx'. apply not_eq_sym, ascii_eqb_false in Hx'.
  rewrite Hx', (IH (S pos) Hs).
  apply tail_miss. simpl. congruence.
Qed.

Lemma wimda_re_unfold :
  WIMDA_RE = GOpen :: map Lit marker ++ DotStar :: tail_re.
Proof. reflexivity. Qed.

Lemma wimda_here_hit (pos : nat) (body rest : bytes) :
  LF ∉ body ->
  match_here WIMDA_RE pos (marker ++ body ++ LF :: rest)
  = Some (S (pos + length marker + length body),
          mkSpan pos (pos + length marker + length body)).
Proof.
  intros Hb. rewrite wimda_re_unfold.
  cbn [match_here]. rewrite match_lits. cbn [match_here].
  by rewrite star_hit.
Qed.

Lemma wimda_here_no_marker (pos : nat) (s : bytes) :
  starts_with marker s = false -> match_here WIMDA_RE pos s = None.
Proof.
  intros H. rewrite wimda_re_unfold. cbn [match_here].
  by rewrite match_lits_miss.
Qed.

Lemma wimda_here_no_newline (pos : nat) (t : bytes) :
  LF ∉ t -> match_here WIMDA_RE pos (marker ++ t) = None.
Proof.
  intros H. rewrite wimda_re_unfold. cbn [match_here].
  rewrite match_lits. cbn [match_here]. by rewrite star_miss.
Qed.

(** A match at an offset: the marker is there, and the match runs to the
    first newline after it. *)
Lemma wimda_here_inv (pos : nat) (s : bytes) (r : nat * span) :
  match_here WIMDA_RE pos s = Some r ->
  exists body rest,
    s = marker ++ body ++ LF :: rest /\ (LF ∉ body) /\
    r = (S (pos + length marker + length body),
         mkSpan pos (pos + length marker + length body)).
Proof.
  intros H.
  destruct (starts_with marker s) eqn:Hm.
  - apply starts_with_inv in Hm as [t ->].
    destruct (decide (LF ∈ t)) as [Hin|Hnot].
    + apply list_elem_of_split_l in Hin as (body & rest & -> & Hb).
      rewrite (wimda_here_hit pos body rest Hb) in H.
      exists body, rest. split; [done|]. split; [done|]. congruence.
    + by rewrite wimda_here_no_newline in H.
  - by rewrite wimda_here_no_marker in H.
Qed.

(** ** [re.search] with the pattern of the driver *)

Lemma marker_free_before_spec (n : nat) (s : bytes) :
  marker_free_before n s = true <->
  forall i, i < n -> starts_with marker (drop i s) = false.
Proof.
  unfold marker_free_before. rewrite forallb_forall. split.
  - intros H i Hi. apply negb_true_iff, H, in_seq. lia.
  - intros H i Hi. apply in_seq in Hi. apply negb_true_iff, H. lia.
Qed.

Lemma marker_free_before_cons (n : nat) (x : ascii) (s : bytes) :
  marker_free_before (S n) (x :: s) = true <->
  starts_with marker (x :: s) = false /\ marker_free_before n s = true.
Proof.
  rewrite !marker_free_before_spec. split.
  - intros H. split; [apply (H 0); lia|].
    intros i Hi. apply (H (S i)). lia.
  - intros [H0 H] [|i] Hi; [done|]. apply H. lia.
Qed.

Lemma search_from_unfold (p : pattern) (pos : nat) (s : bytes) :
  search_from p pos s
  = match match_here p pos s with
    | Some (e, g1) => Some (mkSpan pos e, g1)
    | None =>
        match s with
        | [] => None
        | _ :: s' => search_from p (S pos) s'
        end
    end.
Proof. by destruct s. Qed.

(** The search stops at the first marker that has a newline after it. *)
Lemma search_hit (pos : nat) (noise body rest : bytes) :
  LF ∉ body ->
  marker_free_before (length noise) (noise ++ marker ++ body ++ LF :: rest) = true ->
  search_from WIMDA_RE pos (noise ++ marker ++ body ++ LF :: rest)
  = Some (mkSpan (pos + length noise)
            (S (pos + length noise + length marker + length body)),
          mkSpan (pos + length noise)
            (pos + length noise + length marker + length body)).
Proof.
  intros Hb. revert pos. induction noise as [|x noise IH]; intros pos Hfree.
  - cbn [app length]. rewrite Nat.add_0_r.
    by rewrite search_from_unfold, (wimda_here_hit pos _ _ Hb).
  - cbn [app length] in *. apply marker_free_before_cons in Hfree as [H0 Hfree].
    rewrite search_from_unfold, (wimda_here_no_marker pos _ H0).
    rewrite (IH (S pos) Hfree).
    by replace (pos + S (length noise)) with (S pos + length noise) by lia.
Qed.

Lemma search_inv (pos : nat) (s : bytes) (all g1 : span) :
  search_from WIMDA_RE pos s = Some (all, g1) ->
  exists noise body rest,
    s = noise ++ marker ++ body ++ LF :: rest /\ (LF ∉ body) /\
    marker_free_before (length noise) s = true /\
    all = mkSpan (pos + length noise)
            (S (pos + length noise + length marker + length body)) /\
    g1 = mkSpan (pos + length noise)
           (pos + length noise + length marker + length body).
Proof.
  revert pos. induction s as [|x s IH]; intros pos H.
  - by vm_compute in H.
  - rewrite search_from_unfold in H.
    destruct (match_here WIMDA_RE pos (x :: s)) as [[e g]|] eqn:Hhere.
    + apply wimda_here_inv in Hhere as (body & rest & Hs & Hb & Hr).
      exists [], body, rest. cbn [app length]. rewrite Nat.add_0_r.
      split; [done|]. split; [done|]. split; [done|].
      inversion Hr; subst e g. by inversion H.
    + apply IH in H as (noise & body & rest & Hs & Hb & Hfree & Hall & Hg).
      exists (x :: noise), body, rest. cbn [app length].
      replace (pos + S (length noise)) with (S pos + length noise) by lia.
      split; [by rewrite Hs|]. split; [done|]. split; [|done].
      apply marker_free_before_cons. split; [|done].
      destruct (starts_with marker (x :: s)) eqn:Hm; [|done].
      apply starts_with_inv in Hm as [t Ht].
      (* the marker at this offset would have the newline of the later
         match after it *)
      assert (LF ∈ t) as Hin.
      { assert (t = drop (length marker) (x :: s)) as ->
          by (by rewrite Ht, drop_app_length).
        change (drop (length marker) (x :: s)) with (drop 6 s).
        rewrite Hs. rewrite (app_assoc noise), (app_assoc _ body).
        rewrite drop_app_le by (rewrite !length_app; simpl; lia).
        set_solver. }
      apply list_elem_of_split_l in Hin as (body' & rest' & -> & Hb').
      rewrite Ht, (wimda_here_hit pos body' rest' Hb') in Hhere. done.
Qed.

Lemma slice_app (a x b : bytes) :
  slice (a ++ x ++ b) (mkSpan (length a) (length a + length x)) = x.
Proof.
  unfold slice. simpl. rewrite drop_app_length.
  replace (length a + length x - length a) with (length x) by lia.
  by rewrite take_app_length.
Qed.

(** The match object of a buffer that holds a frame. *)
Lemma re_search_hit (noise body rest : bytes) :
  LF ∉ body ->
  marker_free_before (length noise) (noise ++ marker ++ body ++ LF :: rest) = true ->
  exists m,
    re_search WIMDA_RE (noise ++ marker ++ body ++ LF :: rest) = Some m /\
    s_start (m_all m) = length noise /\
    group0 m = marker ++ body ++ [LF] /\
    group1 m = marker ++ body.
Proof.
  intros Hb Hfree. unfold re_search.
  rewrite (search_hit 0 noise body rest Hb Hfree). cbn [Nat.add].
  eexists. split; [done|]. split; [done|].
  unfold group0, group1. cbn [m_subject m_all m_g1]. split.
  - replace (S (length noise + length marker + length body))
      with (length noise + length (marker ++ body ++ [LF]))
      by (rewrite !length_app; simpl; lia).
    replace (noise ++ marker ++ body ++ LF :: rest)
      with (noise ++ (marker ++ body ++ [LF]) ++ rest)
      by (by rewrite <- !app_assoc).
    apply slice_app.
  - replace (length noise + length marker + length body)
      with (length noise + length (marker ++ body))
      by (rewrite !length_app; lia).
    replace (noise ++ marker ++ body ++ LF :: rest)
      with (noise ++ (marker ++ body) ++ LF :: rest)
      by (by rewrite <- !app_assoc).
    apply slice_app.
Qed.

Lemma re_search_inv (s : bytes) (m : match_object) :
  re_search WIMDA_RE s = Some m ->
  exists noise body rest,
    s = noise ++ marker ++ body ++ LF :: rest /\ (LF ∉ body) /\
    marker_free_before (length noise) s = true /\
    group0 m = marker ++ body ++ [LF] /\
    group1 m = marker ++ body.
Proof.
  intros H. pose proof H as H'. unfold re_search in H'.
  destruct (search_from WIMDA_RE 0 s) as [[all g1]|] eqn:Hs; [|done].
  apply search_inv in Hs as (noise & body & rest & Heq & Hb & Hfree & _ & _).
  subst s.
  destruct (re_search_hit noise body rest Hb Hfree) as (m' & Hm' & _ & H0 & H1).
  rewrite H in Hm'. inversion Hm'; subst m'.
  by exists noise, body, rest.
Qed.

(** More input after a buffer that matches does not change the frame. *)
Lemma marker_free_before_app (n : nat) (s t : bytes) :
  n + length marker <= length s ->
  marker_free_before n s = true -> marker_free_before n (s ++ t) = true.
Proof.
  rewrite !marker_free_before_spec. intros Hlen H i Hi.
  rewrite drop_app_le by lia.
  rewrite starts_with_long; [by apply H|].
  rewrite length_drop. lia.
Qed.

Lemma re_search_app (a b : bytes) (m : match_object) :
  re_search WIMDA_RE a = Some m ->
  exists m', re_search WIMDA_RE (a ++ b) = Some m' /\ group1 m' = group1 m.
Proof.
  intros H.
  apply re_search_inv in H as (noise & body & rest & -> & Hb & Hfree & _ & ->).
  replace ((noise ++ marker ++ body ++ LF :: rest) ++ b)
    with (noise ++ marker ++ body ++ LF :: (rest ++ b))
    by (by rewrite <- !app_assoc).
  destruct (re_search_hit noise body (rest ++ b) Hb) as (m' & Hm' & _ & _ & H1).
  - replace (noise ++ marker ++ body ++ LF :: (rest ++ b))
      with ((noise ++ marker ++ body ++ LF :: rest) ++ b)
      by (by rewrite <- !app_assoc).
    apply marker_free_before_app; [|done].
    rewrite !length_app. lia.
  - by exists m'.
Qed.

(** ** The read loop *)

Lemma wimda_loop_hit (buf chunk : bytes) (p : port) (m : match_object) :
  re_search WIMDA_RE (buf ++ strip NUL chunk) = Some m ->
  wimda_loop buf (Chunk chunk :: p) = (Return (group1 m), p).
Proof. intros H. cbn [wimda_loop]. by rewrite H. Qed.

Lemma wimda_loop_miss (buf chunk : bytes) (p : port) :
  re_search WIMDA_RE (buf ++ strip NUL chunk) = None ->
  wimda_loop buf (Chunk chunk :: p) = wimda_loop (buf ++ strip NUL chunk) p.
Proof. intros H. cbn [wimda_loop]. by rewrite H. Qed.

(** A call returns when the buffer first matches: it has read the chunks
    [cs], and the frame is group 1 of the match on what they left in the
    buffer. *)
Lemma wimda_loop_inv (buf : bytes) (p p' : port) (frame : bytes) :
  wimda_loop buf p = (Return frame, p') ->
  exists cs m,
    cs <> [] /\ p = map Chunk cs ++ p' /\
    re_search WIMDA_RE (buf ++ buffer_of cs) = Some m /\ group1 m = frame.
Proof.
  revert buf. induction p as [|[chunk|] p IH]; intros buf H; [done| |done].
  cbn [wimda_loop] in H.
  destruct (re_search WIMDA_RE (buf ++ strip NUL chunk)) as [m|] eqn:Hm.
  - inversion H; subst. exists [chunk], m.
    unfold buffer_of. simpl. by rewrite app_nil_r.
  - apply IH in H as (cs & m & _ & -> & Hs & Hg).
    exists (chunk :: cs), m. split; [done|]. split; [done|].
    unfold buffer_of in *. simpl. by rewrite app_assoc.
Qed.

(** Every turn takes a read: the port is shorter after a call that returns
    or raises. *)
Lemma wimda_loop_shorter (buf : bytes) (p p' : port) (r : outcome bytes) :
  wimda_loop buf p = (r, p') -> p <> [] -> length p' < length p.
Proof.
  revert buf. induction p as [|[chunk|] p IH]; intros buf H Hne; [done| |].
  - cbn [wimda_loop] in H.
    destruct (re_search WIMDA_RE (buf ++ strip NUL chunk)).
    + inversion H; subst. simpl. lia.
    + destruct p as [|e p].
      * inversion H; subst. simpl. lia.
      * apply IH in H; [simpl in *; lia|done].
  - inversion H; subst. simpl. lia.
Qed.

(** When no chunk has a NUL at either end, what a call returns depends on
    the bytes alone, not on where the reads cut them. *)
Lemma wimda_loop_chunks (cs : list bytes) (buf : bytes) :
  Forall (fun c => strip NUL c = c) cs ->
  (wimda_loop buf (map Chunk cs)).1
  = match cs with
    | [] => Blocked
    | _ :: _ =>
        match re_search WIMDA_RE (buf ++ concat cs) with
        | Some m => Return (group1 m)
        | None => Blocked
        end
    end.
Proof.
  revert buf. induction cs as [|c cs IH]; intros buf Hcs; [done|].
  apply Forall_cons in Hcs as [Hc Hcs].
  cbn [map wimda_loop concat]. rewrite Hc.
  destruct (re_search WIMDA_RE (buf ++ c)) as [m|] eqn:Hm.
  - destruct (re_search_app (buf ++ c) (concat cs) m Hm) as (m' & Hm' & Hg).
    rewrite <- app_assoc in Hm'. by rewrite Hm', Hg.
  - rewrite (IH _ Hcs). rewrite <- app_assoc.
    destruct cs as [|c' cs]; [|done].
    simpl. by rewrite app_nil_r, Hm.
Qed.

Lemma get_wimda_packet_connected (p : port) :
  get_wimda_packet (connected p)
  = ((wimda_loop [] p).1, connected (wimda_loop [] p).2).
Proof. unfold get_wimda_packet. simpl. by destruct (wimda_loop [] p). Qed.

Lemma re_search_nil : re_search WIMDA_RE [] = None.
Proof. reflexivity. Qed.

Lemma not_in_concat (c : bytes) (cs : list bytes) (x : ascii) :
  x ∉ concat cs -> c ∈ cs -> x ∉ c.
Proof.
  intros Hx Hc Hin. apply Hx.
  apply list_elem_of_In, in_concat. exists c.
  split; by apply list_elem_of_In.
Qed.

(** One turn more than there are reads is enough: with any more turns the
    frames are the same. *)
Lemma frames_loop_enough (fuel fuel' : nat) (p : port) :
  length p < fuel -> length p < fuel' ->
  frames_loop fuel (connected p) = frames_loop fuel' (connected p).
Proof.
  revert fuel' p.
  induction fuel as [|fuel IH]; intros [|fuel'] p Hf Hf'; try lia.
  cbn [frames_loop]. rewrite get_wimda_packet_connected.
  destruct (wimda_loop [] p) as [r p'] eqn:Hloop. cbn [fst snd].
  assert (r <> Blocked -> length p' < length p) as Hshort.
  { intros Hr. apply (wimda_loop_shorter _ _ _ _ Hloop).
    intros ->. simpl in Hloop. congruence. }
  destruct r as [w|e|]; [| |done].
  - f_equal. apply IH; assert (length p' < length p) by (by apply Hshort); lia.
  - destruct e; try done.
    apply IH; assert (length p' < length p) by (by apply Hshort); lia.
Qed.

(** ** Framing and the way the reads cut the bytes *)

(** C1, as the claim has it, fails: two sentences that arrive in one read
    give one frame, [$WIMDA,a]; the same bytes in two reads give two frames,
    [$WIMDA,a] and [$WIMDA,b]. *)
Lemma chunking_changes_frames :
  let c1 := B "$WIMDA,a" ++ [LF] in
  let c2 := B "$WIMDA,b" ++ [LF] in
  wf_port [Chunk (c1 ++ c2)] = true /\
  frames [Chunk (c1 ++ c2)] = [B "$WIMDA,a"] /\
  frames [Chunk c1; Chunk c2] = [B "$WIMDA,a"; B "$WIMDA,b"] /\
  frames [Chunk (c1 ++ c2)] <> frames [Chunk c1; Chunk c2].
Proof. vm_compute. repeat split; congruence. Qed.

(** C1, amended: for bytes without NUL, the first frame that
    [get_wimda_packet] returns is the same however the reads cut the bytes,
    in one chunk or in many. *)
Theorem first_frame_chunking_invariant (cs1 cs2 : list bytes) :
  concat cs1 = concat cs2 ->
  NUL ∉ concat cs1 ->
  (get_wimda_packet (connected (map Chunk cs1))).1
  = (get_wimda_packet (connected (map Chunk cs2))).1.
Proof.
  intros Hsame Hnul. rewrite !get_wimda_packet_connected. cbn [fst].
  rewrite !wimda_loop_chunks.
  - destruct cs1 as [|a cs1], cs2 as [|b cs2]; cbn [app]; [done| | |].
    + by rewrite <- Hsame.
    + by rewrite Hsame.
    + by rewrite Hsame.
  - apply Forall_forall. intros c Hc. apply strip_absent.
    rewrite Hsame in Hnul. by apply (not_in_concat c cs2).
  - apply Forall_forall. intros c Hc. apply strip_absent.
    by apply (not_in_concat c cs1).
Qed.

Lemma first_frame_chunking_invariant_witness :
  let c1 := B "xx$WIMDA,1" in
  let c2 := B ",2" ++ [LF] ++ B "$WIM" in
  (get_wimda_packet (connected (map Chunk [c1; c2]))).1
  = (get_wimda_packet (connected (map Chunk [c1 ++ c2]))).1.
Proof.
  apply (first_frame_chunking_invariant
           [B "xx$WIMDA,1"; B ",2" ++ [LF] ++ B "$WIM"]
           [B "xx$WIMDA,1" ++ B ",2" ++ [LF] ++ B "$WIM"]).
  - reflexivity.
  - absent_from_literal.
Defined.

(** ** NUL padding *)

(** C2, as the claim has it, fails: a NUL inside a chunk is not at either
    end of it, [strip] leaves it, and the frame returned holds it. *)
Lemma interior_nul_kept :
  let chunk := B "$WIMDA,a" ++ [NUL] ++ B "b" ++ [LF] in
  wf_port [Chunk chunk] = true /\
  get_wimda_packet (connected [Chunk chunk])
  = (Return (B "$WIMDA,a" ++ [NUL] ++ B "b"), connected []) /\
  B "$WIMDA,a" ++ [NUL] ++ B "b" <> B "$WIMDA,ab".
Proof. vm_compute. repeat split; congruence. Qed.

(** C2, amended: a chunk is appended to the buffer with the NUL bytes at
    its two ends stripped, so a chunk that holds a valid frame between any
    number of NUL bytes yields that frame, and NUL bytes at the ends of a
    chunk never change what a call returns; NUL bytes inside the frame are
    kept as they are. *)
Theorem nul_padding_stripped (a b : nat) (payload : bytes) (p : port) :
  LF ∉ payload ->
  get_wimda_packet
    (connected
       (Chunk (replicate a NUL ++ (marker ++ payload ++ [LF]) ++ replicate b NUL)
        :: p))
  = (Return (marker ++ payload), connected p) /\
  (forall buf chunk,
     wimda_loop buf (Chunk (replicate a NUL ++ chunk ++ replicate b NUL) :: p)
     = wimda_loop buf (Chunk chunk :: p)).
Proof.
  intros Hp. split.
  - rewrite get_wimda_packet_connected.
    destruct (re_search_hit [] payload [] Hp) as (m & Hm & _ & _ & Hg); [done|].
    rewrite (wimda_loop_hit [] _ p m).
    + by rewrite Hg.
    + cbn [app]. change (marker ++ payload ++ [LF])
        with ("$"%char :: (B "WIMDA," ++ payload) ++ [LF]).
      by rewrite strip_padding.
  - intros buf chunk. cbn [wimda_loop]. by rewrite strip_padded.
Qed.

Lemma nul_padding_stripped_witness :
  let payload := B "29.92,I" ++ [NUL] ++ B ",20.0,C" in
  get_wimda_packet
    (connected
       [Chunk (replicate 3 NUL ++ (marker ++ payload ++ [LF]) ++ replicate 2 NUL)])
  = (Return (marker ++ payload), connected []) /\
  (forall buf chunk,
     wimda_loop buf [Chunk (replicate 3 NUL ++ chunk ++ replicate 2 NUL)]
     = wimda_loop buf [Chunk chunk]).
Proof.
  apply (nul_padding_stripped 3 2 (B "29.92,I" ++ [NUL] ++ B ",20.0,C") []).
  absent_from_literal.
Defined.

(** ** The buffer between calls *)

(** C3, as the claim has it, fails: the read that completes [$WIMDA,a] also
    brings the start of the next sentence; the next call begins with an
    empty buffer, so the newline that arrives then completes nothing.  Had
    the bytes after the terminator been kept, that call would have returned
    [$WIMDA,b]. *)
Lemma remainder_not_retained :
  let p := [Chunk (B "$WIMDA,a" ++ [LF] ++ B "$WIMDA,b"); Chunk [LF]] in
  wf_port p = true /\
  get_wimda_packet (connected p) = (Return (B "$WIMDA,a"), connected [Chunk [LF]]) /\
  get_wimda_packet (connected [Chunk [LF]]) = (Blocked, connected []) /\
  wimda_loop (B "$WIMDA,b") [Chunk [LF]] = (Return (B "$WIMDA,b"), []).
Proof. vm_compute. repeat split. Qed.

(** C3, amended: when a call finds a frame it returns it and its buffer is
    dropped whole; the bytes that followed the terminator in the chunk are
    not kept, and the frames of the later calls are those of the reads that
    are left, whatever those bytes were. *)
Theorem buffer_dropped_on_return (payload tail : bytes) (p : port) :
  LF ∉ payload ->
  get_wimda_packet (connected (Chunk (marker ++ payload ++ LF :: tail) :: p))
  = (Return (marker ++ payload), connected p) /\
  frames (Chunk (marker ++ payload ++ LF :: tail) :: p)
  = (marker ++ payload) :: frames p.
Proof.
  intros Hp.
  assert (get_wimda_packet
            (connected (Chunk (marker ++ payload ++ LF :: tail) :: p))
          = (Return (marker ++ payload), connected p)) as Hcall.
  { rewrite get_wimda_packet_connected.
    assert (strip NUL (marker ++ payload ++ LF :: tail)
            = marker ++ payload ++ LF :: rstrip NUL tail) as Hstrip.
    { rewrite !(app_assoc marker). by apply strip_keep. }
    destruct (re_search_hit [] payload (rstrip NUL tail) Hp) as (m & Hm & _ & _ & Hg);
      [done|].
    rewrite (wimda_loop_hit [] _ p m); [by rewrite Hg|].
    cbn [app]. by rewrite Hstrip. }
  split; [done|].
  unfold frames. cbn [length frames_loop]. by rewrite Hcall.
Qed.

Lemma buffer_dropped_on_return_witness :
  frames (Chunk (marker ++ B "1,2" ++ LF :: B "$WIMDA,3") :: [Chunk [LF]])
  = (marker ++ B "1,2") :: frames [Chunk [LF]].
Proof.
  apply (buffer_dropped_on_return (B "1,2") (B "$WIMDA,3") [Chunk [LF]]).
  absent_from_literal.
Defined.

(** ** Which span is matched *)

(** C4: in a buffer where noise, false starts of the marker among it, comes
    before a [$WIMDA,] that has a newline after it, the search matches from
    that marker through the newline, and the frame returned leaves out all
    the bytes before the marker. *)
Theorem first_marker_policy (buf chunk noise payload rest : bytes) (p : port) :
  buf ++ strip NUL chunk = noise ++ marker ++ payload ++ LF :: rest ->
  LF ∉ payload ->
  marker_free_before (length noise) (buf ++ strip NUL chunk) = true ->
  (exists m,
     re_search WIMDA_RE (buf ++ strip NUL chunk) = Some m /\
     s_start (m_all m) = length noise /\
     group0 m = marker ++ payload ++ [LF] /\
     group1 m = marker ++ payload) /\
  wimda_loop buf (Chunk chunk :: p) = (Return (marker ++ payload), p).
Proof.
  intros Hshape Hp Hfree. rewrite Hshape in Hfree.
  destruct (re_search_hit noise payload rest Hp Hfree) as (m & Hm & Hs & H0 & H1).
  rewrite <- Hshape in Hm. split.
  - by exists m.
  - by rewrite (wimda_loop_hit buf chunk p m Hm), H1.
Qed.

Lemma first_marker_policy_witness :
  wimda_loop []
    [Chunk (B "junk$$garbleWIMDA...$WIMDA,29.92,I,1.0132,B" ++ LF :: B "$WI")]
  = (Return (B "$WIMDA,29.92,I,1.0132,B"), []).
Proof.
  apply (first_marker_policy []
           (B "junk$$garbleWIMDA...$WIMDA,29.92,I,1.0132,B" ++ LF :: B "$WI")
           (B "junk$$garbleWIMDA...") (B "29.92,I,1.0132,B") (B "$WI") []).
  - reflexivity.
  - absent_from_literal.
  - reflexivity.
Defined.

(** ** Where a frame begins and ends *)

(** C5, as the claim has it, fails: the frame returned for a sentence that
    ends in CR LF begins with the [$] of the marker and ends with the CR. *)
Lemma frame_keeps_dollar_and_cr :
  let p := [Chunk (B "$WIMDA,29.92,I" ++ [CR; LF])] in
  wf_port p = true /\
  get_wimda_packet (connected p)
  = (Return (B "$WIMDA,29.92,I" ++ [CR]), connected []) /\
  head (B "$WIMDA,29.92,I" ++ [CR]) = Some "$"%char /\
  last (B "$WIMDA,29.92,I" ++ [CR]) = Some CR.
Proof. vm_compute. repeat split. Qed.

(** C5, amended: every frame returned is group 1 of the match: the
    characters from the [$] of the first marker in the buffer, that [$]
    included, up to the first LF after the marker, that LF left out; a CR
    before the LF is part of the frame. *)
Theorem frame_boundaries (p : port) (frame : bytes) (self' : NM150) :
  get_wimda_packet (connected p) = (Return frame, self') ->
  exists cs p' noise body rest,
    p = map Chunk cs ++ p' /\ self' = connected p' /\
    buffer_of cs = noise ++ marker ++ body ++ LF :: rest /\
    marker_free_before (length noise) (buffer_of cs) = true /\
    (LF ∉ body) /\
    frame = marker ++ body.
Proof.
  rewrite get_wimda_packet_connected.
  destruct (wimda_loop [] p) as [r p'] eqn:Hloop. cbn [fst snd].
  intros H. inversion H; subst r self'.
  apply wimda_loop_inv in Hloop as (cs & m & _ & -> & Hm & <-).
  cbn [app] in Hm.
  apply re_search_inv in Hm as (noise & body & rest & Hs & Hb & Hfree & _ & Hg).
  by exists cs, p', noise, body, rest.
Qed.

Lemma frame_boundaries_witness :
  exists cs p' noise body rest,
    [Chunk (B "xx$WIMDA,1"); Chunk (B ",2" ++ [CR; LF] ++ B "yy")]
    = map Chunk cs ++ p' /\ connected [] = connected p' /\
    buffer_of cs = noise ++ marker ++ body ++ LF :: rest /\
    marker_free_before (length noise) (buffer_of cs) = true /\
    (LF ∉ body) /\
    B "$WIMDA,1,2" ++ [CR] = marker ++ body.
Proof.
  apply (frame_boundaries
           [Chunk (B "xx$WIMDA,1"); Chunk (B ",2" ++ [CR; LF] ++ B "yy")]
           (B "$WIMDA,1,2" ++ [CR]) (connected [])).
  reflexivity.
Defined.

(** ** The body of the loop *)

Lemma body_inv `{Host} (now : float) (w : bytes) (packet : gmap string pyval) :
  genLoopPackets_body now w = inr packet ->
  exists parsed b c k d h,
    pynmea2_parse w = inr parsed /\
    py_float (b_pressure_inch parsed) = inr b /\
    py_float (air_temp parsed) = inr c /\
    py_float (wind_speed_knots parsed) = inr k /\
    py_float (direction_true parsed) = inr d /\
    py_float (rel_humidity parsed) = inr h /\
    packet
    = <["outHumidity" := PyFloat h]> (<["windDir" := PyFloat d]>
      (<["windSpeed" :=
           PyFloat (weewx_units_convert (k, knot, group_speed) mile_per_hour).1.1]>
      (<["outTemp" :=
           PyFloat (weewx_units_convert (c, degree_C, group_temperature) degree_F).1.1]>
      (<["barometer" := PyFloat b]>
      (<["dateTime" := PyInt (py_int (now + 0.5)%float)]>
      (<["usUnits" := PyInt weewx_US]> ∅)))))).
Proof.
  unfold genLoopPackets_body, mbind, except_bind, mret, except_ret.
  intros Hbody.
  destruct (pynmea2_parse w) as [|parsed] eqn:Hp; [done|].
  destruct (py_float (b_pressure_inch parsed)) as [|b] eqn:Hb; [done|].
  destruct (py_float (air_temp parsed)) as [|c] eqn:Hc; [done|].
  destruct (py_float (wind_speed_knots parsed)) as [|k] eqn:Hk; [done|].
  destruct (py_float (direction_true parsed)) as [|d] eqn:Hd; [done|].
  destruct (py_float (rel_humidity parsed)) as [|h] eqn:Hh; [done|].
  exists parsed, b, c, k, d, h. repeat (split; [done|]).
  cbv zeta in Hbody. by injection Hbody as <-.
Qed.

Lemma body_ok `{Host} (now : float) (w : bytes) (parsed : sentence attr)
    (b c k d h : float) :
  pynmea2_parse w = inr parsed ->
  py_float (b_pressure_inch parsed) = inr b ->
  py_float (air_temp parsed) = inr c ->
  py_float (wind_speed_knots parsed) = inr k ->
  py_float (direction_true parsed) = inr d ->
  py_float (rel_humidity parsed) = inr h ->
  genLoopPackets_body now w
  = inr (<["outHumidity" := PyFloat h]> (<["windDir" := PyFloat d]>
      (<["windSpeed" :=
           PyFloat (weewx_units_convert (k, knot, group_speed) mile_per_hour).1.1]>
      (<["outTemp" :=
           PyFloat (weewx_units_convert (c, degree_C, group_temperature) degree_F).1.1]>
      (<["barometer" := PyFloat b]>
      (<["dateTime" := PyInt (py_int (now + 0.5)%float)]>
      (<["usUnits" := PyInt weewx_US]> ∅))))))).
Proof.
  intros Hp Hb Hc Hk Hd Hh.
  unfold genLoopPackets_body, mbind, except_bind, mret, except_ret.
  by rewrite Hp, Hb, Hc, Hk, Hd, Hh.
Qed.

(** C6: a sentence that carries pressure 29.92 inHg, air temperature
    20.0 C, humidity 55.0 %, true wind direction 180.0 and wind speed
    10.0 knots decodes to barometer 29.92, outTemp 68.0, outHumidity 55.0,
    windDir 180.0 and windSpeed 11.5078, each within 0.001: pressure,
    humidity and direction pass through, temperature goes from Celsius to
    Fahrenheit and speed from knots to miles per hour. *)
Theorem decode_sample_values `{Host} (now : float) (frame : bytes)
    (parsed : sentence attr) :
  conversion_contract ->
  pynmea2_parse frame = inr parsed ->
  py_float (b_pressure_inch parsed) = inr 29.92%float ->
  py_float (air_temp parsed) = inr 20%float ->
  py_float (rel_humidity parsed) = inr 55%float ->
  py_float (direction_true parsed) = inr 180%float ->
  py_float (wind_speed_knots parsed) = inr 10%float ->
  exists packet,
    genLoopPackets_body now frame = inr packet /\
    reads packet "barometer" 29.92 /\
    reads packet "outTemp" 68 /\
    reads packet "outHumidity" 55 /\
    reads packet "windDir" 180 /\
    reads packet "windSpeed" 11.5078.
Proof.
  intros [HCF Hknot] Hp Hb Hc Hh Hd Hk.
  eexists. split; [by apply (body_ok now frame parsed _ _ _ _ _ Hp Hb Hc Hk Hd Hh)|].
  rewrite HCF, Hknot. unfold reads.
  repeat split; eexists; (split; [by simplify_map_eq|]); by vm_compute.
Qed.

Lemma decode_sample_values_witness :
  exists packet,
    @genLoopPackets_body standin_host 0%float sample_frame = inr packet /\
    reads packet "barometer" 29.92 /\
    reads packet "outTemp" 68 /\
    reads packet "outHumidity" 55 /\
    reads packet "windDir" 180 /\
    reads packet "windSpeed" 11.5078.
Proof.
  apply (@decode_sample_values standin_host 0%float sample_frame
           {| b_pressure_inch := Some (B "29.92");
              air_temp := Some (B "20.0");
              wind_speed_knots := Some (B "10.0");
              direction_true := Some (B "180.0");
              rel_humidity := Some (B "55.0") |}).
  - split; reflexivity.
  - reflexivity.
  - reflexivity.
  - reflexivity.
  - reflexivity.
  - reflexivity.
  - reflexivity.
Defined.

(** C7: when [float] refuses one of the five fields of a sentence, empty or
    not a number, the body of the loop ends in that exception and builds no
    packet; the loop yields nothing for the frame: it either goes on to the
    reads that are left or the exception leaves the generator. *)
Theorem no_partial_record `{Host} (now : float) (frame : bytes)
    (parsed : sentence attr) (v : attr) (e : exn) :
  pynmea2_parse frame = inr parsed ->
  v ∈ required_fields parsed ->
  py_float v = inl e ->
  (exists e', genLoopPackets_body now frame = inl e') /\
  (forall fuel self self' log,
     get_wimda_packet self = (Return frame, self') ->
     exists e',
       gen_loop (S fuel) self log
       = if caught e' then gen_loop fuel self' (log ++ [e'])
         else (Raise e', self', log)).
Proof.
  intros Hp Hv He.
  assert (forall t, exists e', genLoopPackets_body t frame = inl e') as Hfail.
  { intros t. destruct (genLoopPackets_body t frame) as [e'|packet] eqn:Hbody;
      [by exists e'|].
    apply body_inv in Hbody
      as (parsed' & b & c & k & d & h & Hp' & Hb & Hc & Hk & Hd & Hh & _).
    assert (parsed' = parsed) as -> by congruence.
    unfold required_fields in Hv.
    repeat (apply elem_of_cons in Hv as [->|Hv]; [congruence|]).
    by apply elem_of_nil in Hv. }
  split; [apply Hfail|].
  intros fuel self self' log Hcall.
  destruct (Hfail (time_time (pending self'))) as [e' He'].
  exists e'. cbn [gen_loop]. by rewrite Hcall, He'.
Qed.

Lemma no_partial_record_witness :
  let frame := B "$WIMDA,29.92,I,1.0132,B,,C,,,55.0,,10.7,C,180.0,T,175.0,M,10.0,N,5.1,M" in
  (exists e', @genLoopPackets_body standin_host 0%float frame = inl e') /\
  (forall fuel self self' log,
     get_wimda_packet self = (Return frame, self') ->
     exists e',
       @gen_loop standin_host (S fuel) self log
       = if caught e' then @gen_loop standin_host fuel self' (log ++ [e'])
         else (Raise e', self', log)).
Proof.
  apply (@no_partial_record standin_host 0%float
           (B "$WIMDA,29.92,I,1.0132,B,,C,,,55.0,,10.7,C,180.0,T,175.0,M,10.0,N,5.1,M")
           {| b_pressure_inch := Some (B "29.92");
              air_temp := None;
              wind_speed_knots := Some (B "10.0");
              direction_true := Some (B "180.0");
              rel_humidity := Some (B "55.0") |}
           None TypeError).
  - reflexivity.
  - unfold required_fields. cbn. apply list_elem_of_further, list_elem_of_here.
  - reflexivity.
Defined.

(** ** The loop of the generator *)

Lemma wimda_loop_nil (buf : bytes) : wimda_loop buf [] = (Blocked, []).
Proof. reflexivity. Qed.

(** One turn more than there are reads is enough: with any more turns the
    generator does the same. *)
Lemma gen_loop_enough `{Host} (fuel fuel' : nat) (self : NM150) (log : list exn) :
  length (pending self) < fuel -> length (pending self) < fuel' ->
  gen_loop fuel self log = gen_loop fuel' self log.
Proof.
  revert fuel' self log.
  induction fuel as [|fuel IH]; intros [|fuel'] self log Hf Hf'; try lia.
  cbn [gen_loop]. destruct self as [[[p]|]]; [|done].
  change (mkNM150 (Some (mkSerial p))) with (connected p) in *.
  rewrite get_wimda_packet_connected.
  destruct (wimda_loop [] p) as [r p'] eqn:Hloop. cbn [fst snd].
  assert (r <> Blocked -> length p' < length p) as Hshort.
  { intros Hr. apply (wimda_loop_shorter _ _ _ _ Hloop).
    intros ->. rewrite wimda_loop_nil in Hloop. congruence. }
  cbn [pending serial_port rx connected] in Hf, Hf'.
  destruct r as [w|e|]; [| |done].
  - destruct (genLoopPackets_body _ w) as [e|packet]; [|done].
    destruct (caught e); [|done].
    apply IH; cbn [pending serial_port rx connected];
      assert (length p' < length p) by (by apply Hshort); lia.
  - destruct (caught e); [|done].
    apply IH; cbn [pending serial_port rx connected];
      assert (length p' < length p) by (by apply Hshort); lia.
Qed.

Lemma gen_loop_return `{Host} (fuel : nat) (self self' : NM150)
    (log log' : list exn) (packet : gmap string pyval) :
  gen_loop fuel self log = (Return packet, self', log') ->
  exists now w, genLoopPackets_body now w = inr packet.
Proof.
  revert self log. induction fuel as [|fuel IH]; intros self log Hgen; [done|].
  cbn [gen_loop] in Hgen.
  destruct (get_wimda_packet self) as [[w|e|] self1]; [| |done].
  - destruct (genLoopPackets_body _ w) as [e|packet1] eqn:Hbody.
    + destruct (caught e); [by apply IH in Hgen|done].
    + inversion Hgen; subst. eauto.
  - destruct (caught e); [by apply IH in Hgen|done].
Qed.

Lemma gen_loop_raise `{Host} (fuel : nat) (self self' : NM150)
    (log log' : list exn) (e : exn) :
  gen_loop fuel self log = (Raise e, self', log') -> caught e = false.
Proof.
  revert self log. induction fuel as [|fuel IH]; intros self log Hgen; [done|].
  cbn [gen_loop] in Hgen.
  destruct (get_wimda_packet self) as [[w|e1|] self1]; [| |done].
  - destruct (genLoopPackets_body _ w) as [e1|packet1]; [|done].
    destruct (caught e1) eqn:Hc; [by apply IH in Hgen|]. congruence.
  - destruct (caught e1) eqn:Hc; [by apply IH in Hgen|]. congruence.
Qed.

(** ** Errors of the serial port *)

(** C8, as the claim has it, fails: the first read raises
    [SerialException]; the generator does not pass it to its caller, it
    reports it, reads again and yields the packet of the sentence that
    follows. *)
Lemma serial_error_swallowed :
  @genLoopPackets_next standin_host
    (connected [Broken; Chunk (sample_frame ++ [CR; LF])]) []
  = (Return (<["outHumidity" := PyFloat 55]> (<["windDir" := PyFloat 180]>
        (<["windSpeed" := PyFloat 11.5077945]> (<["outTemp" := PyFloat 68]>
        (<["barometer" := PyFloat 29.92]> (<["dateTime" := PyInt 1478275200]>
        (<["usUnits" := PyInt 1]> ∅))))))),
     connected [], [SerialException]).
Proof. vm_compute. reflexivity. Qed.

(** C8, amended: when a read of the serial port raises [SerialException],
    the [except] clause of [genLoopPackets] catches it, [logerr] reports it
    and the loop goes on with the next read; no [SerialException] ever
    reaches the caller of the generator. *)
Theorem serial_error_caught `{Host} (fuel : nat) (self : NM150) (p : port)
    (log : list exn) :
  gen_loop (S fuel) (connected (Broken :: p)) log
  = gen_loop fuel (connected p) (log ++ [SerialException]) /\
  (gen_loop fuel self log).1.1 <> Raise SerialException /\
  (genLoopPackets_next self log).1.1 <> Raise SerialException.
Proof.
  split; [done|].
  assert (forall n, (gen_loop n self log).1.1 <> Raise SerialException) as Hno.
  { intros n Hr.
    destruct (gen_loop n self log) as [[r self'] log'] eqn:Hgen.
    simpl in Hr. subst r. by apply gen_loop_raise in Hgen. }
  split; [apply Hno|]. unfold genLoopPackets_next. apply Hno.
Qed.

(** ** The packets *)

(** C9: every packet that [genLoopPackets] yields has exactly the seven
    keys usUnits, dateTime, barometer, outTemp, windSpeed, windDir and
    outHumidity; usUnits is [weewx.US], dateTime an integer, and each of
    the five measurements a float. *)
Theorem packet_shape `{Host} (fuel : nat) (self self' : NM150)
    (log log' : list exn) (packet : gmap string pyval) :
  gen_loop fuel self log = (Return packet, self', log') ->
  dom packet = packet_keys /\
  packet !! "usUnits" = Some (PyInt weewx_US) /\
  (exists z, packet !! "dateTime" = Some (PyInt z)) /\
  Forall (fun key => exists f, packet !! key = Some (PyFloat f)) measurement_keys.
Proof.
  intros Hgen.
  apply gen_loop_return in Hgen as (now & w & Hbody).
  apply body_inv in Hbody as (parsed & b & c & k & d & h & _ & _ & _ & _ & _ & _ & ->).
  split; [|split; [|split]].
  - rewrite !dom_insert_L, dom_empty_L. unfold packet_keys. set_solver.
  - by simplify_map_eq.
  - eexists. by simplify_map_eq.
  - unfold measurement_keys.
    repeat (apply Forall_cons; split; [eexists; by simplify_map_eq|]).
    apply Forall_nil_2.
Qed.

Lemma packet_shape_witness :
  let packet : gmap string pyval :=
    <["outHumidity" := PyFloat 55]> (<["windDir" := PyFloat 180]>
    (<["windSpeed" := PyFloat 11.5077945]> (<["outTemp" := PyFloat 68]>
    (<["barometer" := PyFloat 29.92]> (<["dateTime" := PyInt 1478275200]>
    (<["usUnits" := PyInt 1]> ∅)))))) in
  dom packet = packet_keys /\
  packet !! "usUnits" = Some (PyInt 1) /\
  (exists z, packet !! "dateTime" = Some (PyInt z)) /\
  Forall (fun key => exists f, packet !! key = Some (PyFloat f)) measurement_keys.
Proof.
  apply (@packet_shape standin_host 2
           (connected [Broken; Chunk (sample_frame ++ [CR; LF])]) (connected [])
           [] [SerialException]).
  vm_compute. reflexivity.
Defined.

(** ** Closing the port *)

(** C10: the first [closePort] closes the serial object and sets
    [self.serial_port] to [None]; a [closePort] on a driver whose port is
    [None] changes nothing and calls nothing; so [closePort] twice is
    [closePort] once. *)
Theorem closePort_idempotent (dev : Serial) (calls : list call)
    (st : NM150 * list call) :
  closePort (mkNM150 (Some dev), calls)
  = (mkNM150 None, calls ++ [SerialClose dev]) /\
  closePort (mkNM150 None, calls) = (mkNM150 None, calls) /\
  serial_port (closePort st).1 = None /\
  closePort (closePort st) = closePort st.
Proof.
  split; [done|]. split; [done|].
  destruct st as [[[d|]] cs]; by cbn.
Qed.

(** * Further properties of the driver *)

(** ** When the search succeeds *)

Lemma search_from_complete (pos : nat) (a b c : bytes) :
  is_Some (search_from WIMDA_RE pos (a ++ marker ++ b ++ LF :: c)).
Proof.
  revert pos. induction a as [|x a IH]; intros pos.
  - cbn [app]. rewrite search_from_unfold.
    assert (LF ∈ b ++ LF :: c) as Hin by set_solver.
    apply list_elem_of_split_l in Hin as (body & rest & -> & Hb).
    by rewrite (wimda_here_hit pos body rest Hb).
  - cbn [app]. rewrite search_from_unfold.
    destruct (match_here WIMDA_RE pos _) as [[e g]|]; [done|]. apply IH.
Qed.

Lemma re_search_complete (a b c : bytes) :
  is_Some (re_search WIMDA_RE (a ++ marker ++ b ++ LF :: c)).
Proof.
  unfold re_search.
  destruct (search_from_complete 0 a b c) as [[all g1] ->]. done.
Qed.

(** The pattern of [get_wimda_packet] matches a buffer exactly when the
    buffer holds [$WIMDA,] with a newline somewhere after it. *)
Theorem search_matches_iff (s : bytes) :
  is_Some (re_search WIMDA_RE s) <->
  exists a b c, s = a ++ marker ++ b ++ LF :: c.
Proof.
  split.
  - intros [m Hm].
    apply re_search_inv in Hm as (noise & body & rest & -> & _).
    by exists noise, body, rest.
  - intros (a & b & c & ->). apply re_search_complete.
Qed.

(** ** Reads that complete no sentence *)

Lemma re_search_none_prefix (a b : bytes) :
  re_search WIMDA_RE (a ++ b) = None -> re_search WIMDA_RE a = None.
Proof.
  intros Hab. destruct (re_search WIMDA_RE a) as [m|] eqn:Ha; [|done].
  destruct (re_search_app a b m Ha) as (m' & Hm' & _). congruence.
Qed.

Lemma buffer_of_cons (c : bytes) (cs : list bytes) :
  buffer_of (c :: cs) = strip NUL c ++ buffer_of cs.
Proof. reflexivity. Qed.

Lemma buffer_of_app (cs1 cs2 : list bytes) :
  buffer_of (cs1 ++ cs2) = buffer_of cs1 ++ buffer_of cs2.
Proof. unfold buffer_of. by rewrite map_app, concat_app. Qed.

(** While the buffer does not match, every chunk read is added to it and
    nothing is taken out. *)
Lemma wimda_loop_accumulate (cs : list bytes) (buf : bytes) (p : port) :
  re_search WIMDA_RE (buf ++ buffer_of cs) = None ->
  wimda_loop buf (map Chunk cs ++ p) = wimda_loop (buf ++ buffer_of cs) p.
Proof.
  revert buf. induction cs as [|c cs IH]; intros buf Hnone.
  - unfold buffer_of. simpl. by rewrite app_nil_r.
  - rewrite buffer_of_cons, app_assoc in Hnone.
    cbn [map app]. rewrite wimda_loop_miss
      by (by apply (re_search_none_prefix _ (buffer_of cs))).
    rewrite (IH _ Hnone). by rewrite buffer_of_cons, app_assoc.
Qed.

(** A call returns at the first read that completes a sentence: the reads
    before it are all taken into the buffer, the frame is cut from the
    whole buffer, and the reads after it are left on the port. *)
Theorem returns_at_completing_read (buf : bytes) (cs : list bytes) (c : bytes)
    (p : port) (m : match_object) :
  re_search WIMDA_RE (buf ++ buffer_of cs) = None ->
  re_search WIMDA_RE (buf ++ buffer_of (cs ++ [c])) = Some m ->
  wimda_loop buf (map Chunk cs ++ Chunk c :: p) = (Return (group1 m), p).
Proof.
  intros Hnone Hsome.
  rewrite (wimda_loop_accumulate cs buf _ Hnone).
  apply wimda_loop_hit.
  rewrite buffer_of_app, app_assoc in Hsome.
  unfold buffer_of at 2 in Hsome. simpl in Hsome.
  by rewrite app_nil_r in Hsome.
Qed.

Lemma returns_at_completing_read_witness :
  wimda_loop [] (map Chunk [B "x$WIM"; B "DA,29.9"] ++
                 Chunk (B "2,I" ++ CR :: LF :: B "$WI") :: [Chunk (B "MDA")])
  = (Return (B "$WIMDA,29.92,I" ++ [CR]), [Chunk (B "MDA")]).
Proof.
  apply (returns_at_completing_read [] [B "x$WIM"; B "DA,29.9"]
           (B "2,I" ++ CR :: LF :: B "$WI") [Chunk (B "MDA")]
           (mkMatch (B "x$WIMDA,29.92,I" ++ CR :: LF :: B "$WI")
              (mkSpan 1 17) (mkSpan 1 16))).
  - reflexivity.
  - reflexivity.
Defined.

(** What has been read holds no complete sentence: the call has taken every
    read and is still waiting; it returns nothing. *)
Theorem incomplete_input_blocks (cs : list bytes) :
  re_search WIMDA_RE (buffer_of cs) = None ->
  get_wimda_packet (connected (map Chunk cs)) = (Blocked, connected []).
Proof.
  intros Hnone. rewrite get_wimda_packet_connected.
  pose proof (wimda_loop_accumulate cs [] [] Hnone) as Hacc.
  rewrite app_nil_r in Hacc. by rewrite Hacc.
Qed.

Lemma incomplete_input_blocks_witness :
  get_wimda_packet
    (connected (map Chunk [B "$GPGGA,1,2" ++ [CR; LF]; B "$WIMDA,29.92"; B ",I,1.01"]))
  = (Blocked, connected []).
Proof.
  apply (incomplete_input_blocks
           [B "$GPGGA,1,2" ++ [CR; LF]; B "$WIMDA,29.92"; B ",I,1.01"]).
  reflexivity.
Defined.

(** ** Sentences cut by the reads *)

Lemma wimda_loop_returns (cs : list bytes) (buf : bytes) (p : port)
    (m : match_object) :
  cs <> [] ->
  re_search WIMDA_RE (buf ++ buffer_of cs) = Some m ->
  exists k, wimda_loop buf (map Chunk cs ++ p) = (Return (group1 m), k ++ p).
Proof.
  revert buf. induction cs as [|c cs IH]; intros buf Hne Hm; [done|].
  rewrite buffer_of_cons, app_assoc in Hm. cbn [map app].
  destruct (re_search WIMDA_RE (buf ++ strip NUL c)) as [m1|] eqn:H1.
  - destruct (re_search_app _ (buffer_of cs) m1 H1) as (m' & Hm' & Hg).
    assert (m' = m) as -> by congruence.
    exists (map Chunk cs). by rewrite (wimda_loop_hit buf c _ m1 H1), Hg.
  - rewrite (wimda_loop_miss buf c _ H1).
    destruct cs as [|c' cs].
    + unfold buffer_of in Hm. simpl in Hm. rewrite app_nil_r in Hm. congruence.
    + by apply IH.
Qed.

(** However the reads cut a sentence, inside its marker or its payload,
    the call puts it together again: when the chunks read, stripped, hold
    noise, then [$WIMDA,], a payload and a newline, the call returns the
    marker with the payload and leaves the later reads on the port. *)
Theorem sentence_reassembled (cs : list bytes) (noise payload rest : bytes)
    (p : port) :
  buffer_of cs = noise ++ marker ++ payload ++ LF :: rest ->
  LF ∉ payload ->
  marker_free_before (length noise) (buffer_of cs) = true ->
  exists k,
    get_wimda_packet (connected (map Chunk cs ++ p))
    = (Return (marker ++ payload), connected (k ++ p)).
Proof.
  intros Hshape Hp Hfree. rewrite Hshape in Hfree.
  destruct (re_search_hit noise payload rest Hp Hfree) as (m & Hm & _ & _ & Hg).
  rewrite <- Hshape in Hm.
  assert (cs <> []) as Hne.
  { intros ->. unfold buffer_of in Hshape. simpl in Hshape.
    by destruct noise. }
  destruct (wimda_loop_returns cs [] p m Hne Hm) as [k Hk].
  exists k. rewrite get_wimda_packet_connected, Hk. cbn [fst snd].
  by rewrite Hg.
Qed.

Lemma sentence_reassembled_witness :
  exists k,
    get_wimda_packet
      (connected (map Chunk [B "junk$WI"; NUL :: B "MDA,29."; B "92,I" ++ LF :: B "$W"]
                  ++ [Chunk (B "IMDA")]))
    = (Return (marker ++ B "29.92,I"), connected (k ++ [Chunk (B "IMDA")])).
Proof.
  apply (sentence_reassembled
           [B "junk$WI"; NUL :: B "MDA,29."; B "92,I" ++ LF :: B "$W"]
           (B "junk") (B "29.92,I") (B "$W") [Chunk (B "IMDA")]).
  - reflexivity.
  - absent_from_literal.
  - reflexivity.
Defined.

(** ** Reads that bring nothing *)

Lemma strip_all_nul (n : nat) : strip NUL (replicate n NUL) = [].
Proof. unfold strip. by rewrite lstrip_all. Qed.

(** A read that times out and returns the empty string, or one that
    returns NUL bytes only, changes nothing: the call goes on as if the
    read had not happened. *)
Theorem idle_read_invisible (n : nat) (buf : bytes) (p : port) :
  re_search WIMDA_RE buf = None ->
  wimda_loop buf (Chunk (replicate n NUL) :: p) = wimda_loop buf p /\
  get_wimda_packet (connected (Chunk (replicate n NUL) :: p))
  = get_wimda_packet (connected p).
Proof.
  intros Hnone. split.
  - rewrite wimda_loop_miss; rewrite strip_all_nul, app_nil_r; done.
  - rewrite !get_wimda_packet_connected.
    by rewrite wimda_loop_miss; rewrite strip_all_nul.
Qed.

Lemma idle_read_invisible_witness :
  wimda_loop (B "$WIMDA,29") (Chunk (replicate 0 NUL) :: [Chunk (B ".92" ++ [LF])])
  = wimda_loop (B "$WIMDA,29") [Chunk (B ".92" ++ [LF])] /\
  get_wimda_packet (connected (Chunk (replicate 0 NUL) :: [Chunk (B ".92" ++ [LF])]))
  = get_wimda_packet (connected [Chunk (B ".92" ++ [LF])]).
Proof.
  apply (idle_read_invisible 0 (B "$WIMDA,29") [Chunk (B ".92" ++ [LF])]).
  reflexivity.
Defined.

(** ** A serial error in the middle of a sentence *)

(** When a read raises [SerialException] before the sentence being read is
    complete, the call raises, and what it had read of the sentence is
    lost: the generator reports the error and starts again, with an empty
    buffer, on the reads after the failed one. *)
Theorem serial_error_drops_partial `{Host} (cs : list bytes) (p : port)
    (fuel : nat) (log : list exn) :
  re_search WIMDA_RE (buffer_of cs) = None ->
  get_wimda_packet (connected (map Chunk cs ++ Broken :: p))
  = (Raise SerialException, connected p) /\
  gen_loop (S fuel) (connected (map Chunk cs ++ Broken :: p)) log
  = gen_loop fuel (connected p) (log ++ [SerialException]).
Proof.
  intros Hnone.
  assert (get_wimda_packet (connected (map Chunk cs ++ Broken :: p))
          = (Raise SerialException, connected p)) as Hcall.
  { rewrite get_wimda_packet_connected.
    by rewrite (wimda_loop_accumulate cs [] _ Hnone). }
  split; [done|]. cbn [gen_loop]. by rewrite Hcall.
Qed.

Lemma serial_error_drops_partial_witness :
  get_wimda_packet
    (connected (map Chunk [B "$WIMDA,29.92,I,1.0"] ++ Broken :: [Chunk (B "132,B" ++ [LF])]))
  = (Raise SerialException, connected [Chunk (B "132,B" ++ [LF])]) /\
  @gen_loop standin_host 2
    (connected (map Chunk [B "$WIMDA,29.92,I,1.0"] ++ Broken :: [Chunk (B "132,B" ++ [LF])])) []
  = @gen_loop standin_host 1 (connected [Chunk (B "132,B" ++ [LF])])
      ([] ++ [SerialException]).
Proof.
  apply (@serial_error_drops_partial standin_host [B "$WIMDA,29.92,I,1.0"]
           [Chunk (B "132,B" ++ [LF])] 1 []).
  reflexivity.
Defined.

(** ** Successive calls *)

Lemma strip_line (payload tail : bytes) :
  strip NUL (marker ++ payload ++ LF :: tail)
  = marker ++ payload ++ LF :: rstrip NUL tail.
Proof. rewrite !(app_assoc marker). by apply strip_keep. Qed.

Lemma get_wimda_packet_line (payload tail : bytes) (p : port) :
  LF ∉ payload ->
  get_wimda_packet (connected (Chunk (marker ++ payload ++ LF :: tail) :: p))
  = (Return (marker ++ payload), connected p).
Proof.
  intros Hp. rewrite get_wimda_packet_connected.
  destruct (re_search_hit [] payload (rstrip NUL tail) Hp)
    as (m & Hm & _ & _ & Hg); [done|].
  rewrite (wimda_loop_hit [] _ p m); [by rewrite Hg|].
  cbn [app]. by rewrite strip_line.
Qed.

Lemma frames_cons_line (payload tail : bytes) (p : port) :
  LF ∉ payload ->
  frames (Chunk (marker ++ payload ++ LF :: tail) :: p)
  = (marker ++ payload) :: frames p.
Proof.
  intros Hp. unfold frames. cbn [length frames_loop].
  by rewrite (get_wimda_packet_line payload tail p Hp).
Qed.

(** When every read begins with a sentence, marker first, the calls return
    the sentences of all the reads, one a call, in the order of the reads;
    what follows the newline in a read is dropped. *)
Theorem one_sentence_per_read (lines : list (bytes * bytes)) (p : port) :
  Forall (fun l => LF ∉ l.1) lines ->
  frames (map (fun l => Chunk (marker ++ l.1 ++ LF :: l.2)) lines ++ p)
  = map (fun l => marker ++ l.1) lines ++ frames p.
Proof.
  induction lines as [|[payload tail] lines IH]; intros Hall; [done|].
  apply Forall_cons in Hall as [Hp Hall]. cbn [map app fst snd] in *.
  by rewrite (frames_cons_line payload tail _ Hp), (IH Hall).
Qed.

Lemma one_sentence_per_read_witness :
  frames (map (fun l => Chunk (marker ++ l.1 ++ LF :: l.2))
            [(B "1,I", []); (B "2,I" ++ [CR], B "$WIMDA,3"); (B "4,I", [])]
          ++ [])
  = map (fun l => marker ++ l.1)
      [(B "1,I", []); (B "2,I" ++ [CR], B "$WIMDA,3"); (B "4,I", [])]
    ++ frames [].
Proof.
  apply (one_sentence_per_read
           [(B "1,I", []); (B "2,I" ++ [CR], B "$WIMDA,3"); (B "4,I", [])] []).
  repeat (apply Forall_cons; split; [cbn [fst]; absent_from_literal|]).
  apply Forall_nil_2.
Defined.

(** What a call takes from the port: the reads come off the front, and a
    call that returns or raises has taken at least one. *)
Lemma wimda_loop_takes (buf : bytes) (p p' : port) (r : outcome bytes) :
  wimda_loop buf p = (r, p') ->
  exists used, p = used ++ p' /\ (r <> Blocked -> used <> []).
Proof.
  revert buf. induction p as [|[chunk|] p IH]; intros buf H.
  - inversion H; subst. by exists [].
  - cbn [wimda_loop] in H.
    destruct (re_search WIMDA_RE (buf ++ strip NUL chunk)).
    + inversion H; subst. by exists [Chunk chunk].
    + apply IH in H as (used & -> & _). by exists (Chunk chunk :: used).
  - inversion H; subst. by exists [Broken].
Qed.

Lemma frames_loop_count (fuel : nat) (p : port) :
  length (frames_loop fuel (connected p)) <= length p.
Proof.
  revert p. induction fuel as [|fuel IH]; intros p; [simpl; lia|].
  cbn [frames_loop]. rewrite get_wimda_packet_connected.
  destruct (wimda_loop [] p) as [r p'] eqn:Hloop. cbn [fst snd].
  apply wimda_loop_takes in Hloop as (used & -> & Hused).
  rewrite length_app.
  destruct r as [w|e|]; [| |simpl; lia].
  - specialize (IH p'). destruct used; [by destruct Hused|].
    simpl in *. lia.
  - destruct e; try (simpl; lia).
    specialize (IH p'). lia.
Qed.

(** There is at most one frame per read: the calls never return more frames
    than the port has delivered reads, however many sentences a read
    holds. *)
Theorem at_most_one_frame_per_read (p : port) :
  length (frames p) <= length p.
Proof. apply frames_loop_count. Qed.

(** ** The size of a frame and the number of reads *)

Lemma lstrip_length (c : ascii) (s : bytes) : length (lstrip c s) <= length s.
Proof.
  induction s as [|x s IH]; [done|]. simpl.
  destruct (ascii_eqb x c); simpl; lia.
Qed.

Lemma rstrip_length (c : ascii) (s : bytes) : length (rstrip c s) <= length s.
Proof.
  induction s as [|x s IH]; [done|]. simpl.
  destruct (rstrip c s); [destruct (ascii_eqb x c)|]; simpl in *; lia.
Qed.

Lemma strip_length (c : ascii) (s : bytes) : length (strip c s) <= length s.
Proof.
  unfold strip. pose proof (rstrip_length c (lstrip c s)).
  pose proof (lstrip_length c s). lia.
Qed.

Lemma buffer_of_length (cs : list bytes) :
  wf_port (map Chunk cs) = true ->
  length (buffer_of cs) <= read_size * length cs.
Proof.
  induction cs as [|c cs IH]; intros Hwf; [simpl; lia|].
  cbn [map wf_port forallb wf_event] in Hwf.
  apply andb_true_iff in Hwf as [Hc Hwf]. apply bool_decide_eq_true in Hc.
  rewrite buffer_of_cons, length_app. cbn [length].
  pose proof (strip_length NUL c). specialize (IH Hwf). lia.
Qed.

(** Reads deliver at most 70 bytes, and the newline is read with the frame:
    a frame returned after [n] reads is shorter than [70 * n] bytes, so a
    sentence of 70 characters or more always costs a second read. *)
Theorem frame_length_bound (p p' : port) (frame : bytes) :
  wf_port p = true ->
  get_wimda_packet (connected p) = (Return frame, connected p') ->
  length frame < read_size * (length p - length p').
Proof.
  intros Hwf. rewrite get_wimda_packet_connected.
  destruct (wimda_loop [] p) as [r p1] eqn:Hloop. cbn [fst snd].
  intros H. inversion H; subst r p1.
  apply wimda_loop_inv in Hloop as (cs & m & _ & -> & Hm & <-).
  cbn [app] in Hm.
  apply re_search_inv in Hm as (noise & body & rest & Hs & _ & _ & _ & ->).
  assert (wf_port (map Chunk cs) = true) as Hwf'.
  { unfold wf_port in *. rewrite forallb_app in Hwf.
    by apply andb_true_iff in Hwf as [? _]. }
  pose proof (buffer_of_length cs Hwf') as Hlen.
  rewrite Hs in Hlen. rewrite !length_app in Hlen. cbn [length] in Hlen.
  rewrite !length_app, length_map.
  replace (length cs + length p' - length p') with (length cs) by lia.
  lia.
Qed.

Lemma frame_length_bound_witness :
  length (B "$WIMDA,29.92,I")
  < read_size * (length [Chunk (B "$WIMDA,29."); Chunk (B "92,I" ++ [LF]); Chunk []]
                 - length [Chunk ([] : bytes)]).
Proof.
  apply (frame_length_bound
           [Chunk (B "$WIMDA,29."); Chunk (B "92,I" ++ [LF]); Chunk []]
           [Chunk []] (B "$WIMDA,29.92,I")).
  - reflexivity.
  - reflexivity.
Defined.

(** ** The generator: reads, log and exceptions *)

Lemma get_wimda_packet_takes (self self' : NM150) (r : outcome bytes) :
  get_wimda_packet self = (r, self') ->
  exists used,
    pending self = used ++ pending self' /\
    (r <> Blocked -> r <> Raise AttributeError -> used <> []).
Proof.
  destruct self as [[[p]|]]; unfold get_wimda_packet; cbn [serial_port rx].
  - destruct (wimda_loop [] p) as [r1 p'] eqn:Hloop.
    intros H. inversion H; subst r1 self'.
    apply wimda_loop_takes in Hloop as (used & -> & Hused).
    exists used. split; [done|]. intros Hb _. by apply Hused.
  - intros H. inversion H; subst. exists []. split; [done|]. congruence.
Qed.

(** The generator takes reads off the front of the port and never puts
    one back; [logerr] is called for exceptions the [except] clause names
    and for nothing else, earlier entries stay, and every exception
    reported has cost at least one read, so the loop cannot spin on an
    error without reading. *)
Theorem generator_accounting `{Host} (fuel : nat) (self self' : NM150)
    (log log' : list exn) (r : outcome (gmap string pyval)) :
  gen_loop fuel self log = (r, self', log') ->
  exists used errs,
    pending self = used ++ pending self' /\
    log' = log ++ errs /\
    Forall (fun e => caught e = true) errs /\
    length errs <= length used.
Proof.
  revert self log.
  induction fuel as [|fuel IH]; intros self log Hgen.
  - inversion Hgen; subst. exists [], []. by rewrite app_nil_r.
  - cbn [gen_loop] in Hgen.
    destruct (get_wimda_packet self) as [r1 self1] eqn:Hcall.
    apply get_wimda_packet_takes in Hcall as (used1 & Hp1 & Hused1).
    assert (forall e, caught e = true ->
              gen_loop fuel self1 (log ++ [e]) = (r, self', log') ->
              used1 <> [] ->
              exists used errs,
                pending self = used ++ pending self' /\
                log' = log ++ errs /\
                Forall (fun e => caught e = true) errs /\
                length errs <= length used) as Hstep.
    { intros e He Hrec Hne.
      apply IH in Hrec as (used & errs & Hp & -> & Hall & Hlen).
      exists (used1 ++ used), (e :: errs).
      rewrite Hp1, Hp, <- !app_assoc. split; [done|]. split; [done|].
      split; [by apply Forall_cons|].
      rewrite length_app. destruct used1; [done|]. simpl. lia. }
    destruct r1 as [w|e|].
    + destruct (genLoopPackets_body _ w) as [e|packet].
      * destruct (caught e) eqn:He.
        -- apply (Hstep e He Hgen). by apply Hused1.
        -- inversion Hgen; subst. exists used1, [].
           rewrite app_nil_r. repeat split; [done|apply Forall_nil_2|simpl; lia].
      * inversion Hgen; subst. exists used1, [].
        rewrite app_nil_r. repeat split; [done|apply Forall_nil_2|simpl; lia].
    + destruct (caught e) eqn:He.
      * apply (Hstep e He Hgen).
        apply Hused1; [done|]. intros Heq. inversion Heq; subst e. done.
      * inversion Hgen; subst. exists used1, [].
        rewrite app_nil_r. repeat split; [done|apply Forall_nil_2|simpl; lia].
    + inversion Hgen; subst. exists used1, [].
      rewrite app_nil_r. repeat split; [done|apply Forall_nil_2|simpl; lia].
Qed.

Lemma generator_accounting_witness :
  exists used errs,
    pending (connected [Broken; Chunk (sample_frame ++ [CR; LF]); Chunk []])
    = used ++ pending (connected [Chunk []]) /\
    [SerialException] = [] ++ errs /\
    Forall (fun e => caught e = true) errs /\
    length errs <= length used.
Proof.
  apply (@generator_accounting standin_host 3
           (connected [Broken; Chunk (sample_frame ++ [CR; LF]); Chunk []])
           (connected [Chunk []]) [] [SerialException]
           (@gen_loop standin_host 3
              (connected [Broken; Chunk (sample_frame ++ [CR; LF]); Chunk []])
              []).1.1).
  vm_compute. reflexivity.
Defined.

(** After [closePort] the driver reads no more: [get_wimda_packet] fails
    with [AttributeError] on the port that is [None], the [except] clause
    does not name that exception, and it leaves the generator at once, with
    nothing reported. *)
Theorem closed_port_raises `{Host} (st : NM150 * list call) (fuel : nat)
    (log : list exn) :
  get_wimda_packet (closePort st).1 = (Raise AttributeError, (closePort st).1) /\
  gen_loop (S fuel) (closePort st).1 log
  = (Raise AttributeError, (closePort st).1, log) /\
  genLoopPackets_next (closePort st).1 log
  = (Raise AttributeError, (closePort st).1, log).
Proof.
  destruct st as [[[dev|]] calls]; by cbn.
Qed.

(** A sentence that [pynmea2.parse] rejects is dropped: when the exception
    is one the [except] clause names, as the [ValueError]s of pynmea2 are,
    it is reported and the generator goes on with the reads that follow;
    any other exception leaves the generator. *)
Theorem rejected_sentence_skipped `{Host} (payload tail : bytes) (p : port)
    (fuel : nat) (log : list exn) (e : exn) :
  LF ∉ payload ->
  pynmea2_parse (marker ++ payload) = inl e ->
  gen_loop (S fuel) (connected (Chunk (marker ++ payload ++ LF :: tail) :: p)) log
  = if caught e then gen_loop fuel (connected p) (log ++ [e])
    else (Raise e, connected p, log).
Proof.
  intros Hp Hparse. cbn [gen_loop].
  rewrite (get_wimda_packet_line payload tail p Hp).
  unfold genLoopPackets_body, mbind, except_bind. by rewrite Hparse.
Qed.

Lemma rejected_sentence_skipped_witness :
  @gen_loop strict_host 2
    (connected (Chunk (marker ++ B "29.92" ++ LF :: B "$GPGGA")
                :: [Chunk (sample_frame ++ [LF])])) []
  = if caught ValueError
    then @gen_loop strict_host 1 (connected [Chunk (sample_frame ++ [LF])])
           ([] ++ [ValueError])
    else (Raise ValueError, connected [Chunk (sample_frame ++ [LF])], []).
Proof.
  apply (@rejected_sentence_skipped strict_host
           (B "29.92") (B "$GPGGA") [Chunk (sample_frame ++ [LF])] 1 [] ValueError).
  - absent_from_literal.
  - reflexivity.
Defined.

(** ** Which exception the body of the loop raises *)

(** The body of the loop fails with the exception of [pynmea2.parse], or
    else with that of the first [float] call that fails, the calls being
    made on pressure, air temperature, wind speed, wind direction and
    humidity in that order; a later field is not looked at once an earlier
    one has failed. *)
Theorem body_error_order `{Host} (now : float) (frame : bytes) (e : exn) :
  genLoopPackets_body now frame = inl e <->
  pynmea2_parse frame = inl e \/
  exists parsed,
    pynmea2_parse frame = inr parsed /\
    first_error (map py_float (required_fields parsed)) = Some e.
Proof.
  unfold genLoopPackets_body, mbind, except_bind, mret, except_ret.
  unfold required_fields. cbn [map first_error].
  destruct (pynmea2_parse frame) as [e0|parsed].
  - split; [intros Heq; left; congruence|].
    intros [Heq|(parsed & Hp & _)]; congruence.
  - split.
    + intros Hbody. right. exists parsed. split; [done|].
      destruct (py_float (b_pressure_inch parsed)); [congruence|].
      destruct (py_float (air_temp parsed)); [congruence|].
      destruct (py_float (wind_speed_knots parsed)); [congruence|].
      destruct (py_float (direction_true parsed)); [congruence|].
      destruct (py_float (rel_humidity parsed)); [congruence|done].
    + intros [Heq|(parsed' & Hp & Hfirst)]; [done|].
      assert (parsed' = parsed) as -> by congruence.
      destruct (py_float (b_pressure_inch parsed)); [congruence|].
      destruct (py_float (air_temp parsed)); [congruence|].
      destruct (py_float (wind_speed_knots parsed)); [congruence|].
      destruct (py_float (direction_true parsed)); [congruence|].
      destruct (py_float (rel_humidity parsed)); [congruence|done].
Qed.

(** ** Configuration *)

(** [__init__] reads the keys port and baud and no other: a key such as
    the driver key of the stanza, set, changed or removed, makes no
    difference to the port that is opened. *)
Theorem other_keys_ignored `{Platform} (stn_dict : gmap string confval)
    (key : string) (v : confval) :
  key <> "port" -> key <> "baud" ->
  NM150_init (<[key := v]> stn_dict) = NM150_init stn_dict /\
  NM150_init (delete key stn_dict) = NM150_init stn_dict.
Proof.
  intros Hp Hb. unfold NM150_init, dict_get.
  by rewrite !lookup_insert_ne, !lookup_delete_ne.
Qed.

Lemma other_keys_ignored_witness :
  @NM150_init standin_platform
    (<["driver" := CStr "user.nm150"]> {[ "port" := CStr "/dev/ttyS0" ]})
  = @NM150_init standin_platform {[ "port" := CStr "/dev/ttyS0" ]} /\
  @NM150_init standin_platform (delete "driver" {[ "port" := CStr "/dev/ttyS0" ]})
  = @NM150_init standin_platform {[ "port" := CStr "/dev/ttyS0" ]}.
Proof.
  apply (@other_keys_ignored standin_platform
           {[ "port" := CStr "/dev/ttyS0" ]} "driver" (CStr "user.nm150")).
  - discriminate.
  - discriminate.
Defined.

(** A baud rate written as text in the configuration opens the port as
    the number it reads as does. *)
Theorem baud_text_or_number `{Platform} (stn_dict : gmap string confval)
    (s : string) (z : Z) :
  int_of_str s = inr z ->
  NM150_init (<["baud" := CStr s]> stn_dict)
  = NM150_init (<["baud" := CInt z]> stn_dict).
Proof.
  intros Hint. unfold NM150_init, dict_get.
  rewrite !lookup_insert_eq, !lookup_insert_ne by done.
  cbn [py_int_conf]. by rewrite Hint.
Qed.

Lemma baud_text_or_number_witness :
  @NM150_init standin_platform (<["baud" := CStr "9600"]> ∅)
  = @NM150_init standin_platform (<["baud" := CInt 9600]> ∅).
Proof.
  apply (@baud_text_or_number standin_platform ∅ "9600" 9600).
  reflexivity.
Defined.

(** The settings that the conf editor returns, given to [__init__], open
    the port that was answered at the prompt, at the default 4800 baud
    with a timeout of 3 seconds; [int] is not asked to read any text. *)
Theorem prompted_port_opened `{Platform} (prompt : string -> confval -> confval) :
  NM150_init (prompt_for_settings prompt)
  = (dev ← serial_Serial (prompt "port" DEFAULT_PORT) 4800 3;
     mret (mkNM150 (Some dev))).
Proof.
  unfold NM150_init, prompt_for_settings, dict_get.
  by rewrite lookup_singleton_eq, lookup_singleton_ne.
Qed.

(** [loader] looks at the section NM150 and at no other: without it the
    lookup raises [KeyError] before anything is opened, with it the driver
    is built from that section, and other sections, set or removed, make no
    difference. *)
Theorem loader_section_only `{Platform}
    (config_dict : gmap string (gmap string confval))
    (section : string) (stn_dict : gmap string confval) :
  section <> DRIVER_NAME ->
  loader (<[section := stn_dict]> config_dict) = loader config_dict /\
  loader (delete section config_dict) = loader config_dict /\
  loader (delete DRIVER_NAME config_dict) = KeyError /\
  loader (<[DRIVER_NAME := stn_dict]> config_dict)
  = Constructed (NM150_init stn_dict).
Proof.
  intros Hne. unfold loader.
  rewrite lookup_insert_ne, lookup_delete_ne, lookup_delete_eq, lookup_insert_eq
    by done.
  done.
Qed.

Lemma loader_section_only_witness :
  @loader standin_platform (<["Station" := ∅]> {[ "NM150" := ∅ ]})
  = @loader standin_platform {[ "NM150" := ∅ ]} /\
  @loader standin_platform (delete "Station" {[ "NM150" := ∅ ]})
  = @loader standin_platform {[ "NM150" := ∅ ]} /\
  @loader standin_platform (delete DRIVER_NAME {[ "NM150" := ∅ ]}) = KeyError /\
  @loader standin_platform (<[DRIVER_NAME := ∅]> {[ "NM150" := ∅ ]})
  = Constructed (@NM150_init standin_platform ∅).
Proof.
  apply (@loader_section_only standin_platform {[ "NM150" := ∅ ]} "Station" ∅).
  discriminate.
Defined.
